(** * squashfs: the sequential data-block reader and the File node

    A shallow embedding of the data reader (DataBlock, DataReader and its
    methods) and of the File methods of reader_file.go, followed by the
    properties checked against them.

    Conventions.  Go's [uint32] is a [Z] reduced modulo 2^32, [int] and
    [int64] are [Z] wrapped into the signed 64-bit range, a [[]byte] is a
    [list byte].  A run-time panic (index out of range, failed type
    assertion, slice bounds) is the [Panic] outcome.  The one unbounded
    loop, the outer loop of [DataReader.Read], takes fuel, one unit per
    iteration; [OutOfFuel] means the loop was still running.

    Names follow the source.  Where Rocq does not allow that: the inode
    field [Type] is [iType], the reader's [super.BlockSize] is
    [super_BlockSize], and [File.e] is [f_e] next to [Reader.e]. *)

From Stdlib Require Import ZArith Lia Bool.
From Stdlib Require Import Init.Byte.
From Stdlib Require Strings.Byte.
From stdpp Require Import base list.

Open Scope Z_scope.

(** ** Go primitives *)

Module Go.

Definition u32 (x : Z) : Z := x mod 2 ^ 32.

(** Two's complement wrap-around of [int] / [int64]. *)
Definition int (x : Z) : Z := (x + 2 ^ 63) mod 2 ^ 64 - 2 ^ 63.

Definition len {A} (l : list A) : Z := Z.of_nat (length l).

(** [l[i]] as an r-value: [None] where Go panics. *)
Definition index {A} (l : list A) (i : Z) : option A :=
  if 0 <=? i then l !! Z.to_nat i else None.

(** [l[i] = x]: [None] where Go panics. *)
Definition store {A} (l : list A) (i : Z) (x : A) : option (list A) :=
  if (0 <=? i) && (i <? len l) then Some (<[Z.to_nat i := x]> l) else None.

(** [l[lo:hi]] for a slice whose capacity equals its length. *)
Definition slice {A} (l : list A) (lo hi : Z) : option (list A) :=
  if (0 <=? lo) && (lo <=? hi) && (hi <=? len l)
  then Some (take (Z.to_nat (hi - lo)) (drop (Z.to_nat lo) l))
  else None.

Inductive outcome (A : Type) : Type :=
| Ret (a : A)
| Panic.
Arguments Ret {A} a.
Arguments Panic {A}.

End Go.

Import Go.

(** Error values that cross the functions below. *)
Inductive error : Type :=
| io_EOF
| ErrRanOutOfBlocks      (* errors.New("Ran out of blocks") *)
| ErrNotEnoughData       (* errors.New("Didn't read enough data") *)
| ErrReadNotFile
| fs_ErrClosed
| ErrNotDirectory        (* errors.New("file is not a directory") *)
| ErrExternal (code : Z) (* raised by a collaborator: I/O, codec, tables *).

(** ** The data reader *)

Module Data.

(** An image section, [io.NewSectionReader(r, off, n)]. *)
Definition section : Type := (Z * Z)%type.

(** The part of [Reader] the data reader uses.  [copySection off n] is
    what [io.Copy] gathers from the section, [Decompress off n] what the
    decompressor makes of it. *)
Record Reader : Type := {
  super_BlockSize : Z;
  copySection : Z -> Z -> error + list byte;
  Decompress : Z -> Z -> error + list byte
}.

Record DataBlock : Type := {
  begOffset : Z;
  size : Z;
  compressed : bool;
  uncompressedSize : Z
}.

Record DataReader : Type := {
  r : Reader;
  offset : Z;
  blocks : list DataBlock;
  curBlock : Z;
  curData : list byte;
  curReadOffset : Z
}.

(** [raw&1<<24 != 1<<24] and [raw &^ 1 << 24]: in Go [&], [&^] and [<<]
    have one precedence and associate to the left. *)
Definition NewDataBlockSize (raw : Z) : DataBlock :=
  let c := negb (u32 (Z.shiftl (Z.land raw 1) 24) =? Z.shiftl 1 24) in
  let s := u32 (Z.shiftl (Z.ldiff raw 1) 24) in
  {| begOffset := 0;
     size := s;
     compressed := c;
     uncompressedSize := if c then 0 else s |}.

(** What one materialization step leaves behind: the reader, the error
    returned and the image sections it asked for. *)
Record step : Type := {
  st : DataReader;
  err : option error;
  io : list section
}.

Definition setBlock (d : DataReader) (b : DataBlock) : list DataBlock :=
  <[Z.to_nat (curBlock d) := b]> (blocks d).

Definition readCurBlock (d : DataReader) : outcome step :=
  if len (blocks d) <=? curBlock d then
    Ret {| st := d; err := Some io_EOF; io := [] |}
  else
    match index (blocks d) (curBlock d) with
    | None => Panic
    | Some b =>
      if size b =? 0 then
        let bs := super_BlockSize (r d) in
        let b' := {| begOffset := offset d; size := size b;
                     compressed := compressed b;
                     uncompressedSize := bs |} in
        Ret {| st := {| r := r d; offset := offset d;
                        blocks := setBlock d b'; curBlock := curBlock d;
                        curData := replicate (Z.to_nat bs) x00;
                        curReadOffset := curReadOffset d |};
               err := None; io := [] |}
      else
        let sec := (offset d, size b) in
        if compressed b then
          match Decompress (r d) (offset d) (size b) with
          | inl e => Ret {| st := d; err := Some e; io := [sec] |}
          | inr btys =>
            let b' := {| begOffset := offset d; size := size b;
                         compressed := compressed b;
                         uncompressedSize := u32 (len btys) |} in
            Ret {| st := {| r := r d; offset := int (offset d + size b);
                            blocks := setBlock d b'; curBlock := curBlock d;
                            curData := btys;
                            curReadOffset := curReadOffset d |};
                   err := None; io := [sec] |}
          end
        else
          match copySection (r d) (offset d) (size b) with
          | inl e => Ret {| st := d; err := Some e; io := [sec] |}
          | inr buf =>
            let b' := {| begOffset := offset d; size := size b;
                         compressed := compressed b;
                         uncompressedSize := uncompressedSize b |} in
            Ret {| st := {| r := r d; offset := int (offset d + size b);
                            blocks := setBlock d b'; curBlock := curBlock d;
                            curData := buf;
                            curReadOffset := curReadOffset d |};
                   err := None; io := [sec] |}
          end
    end.

Definition setCurBlock (d : DataReader) (n : Z) : DataReader :=
  {| r := r d; offset := offset d; blocks := blocks d; curBlock := n;
     curData := curData d; curReadOffset := curReadOffset d |}.

Definition readNextBlock (d : DataReader) : outcome step :=
  let d1 := setCurBlock d (int (curBlock d + 1)) in
  if len (blocks d1) <=? curBlock d1 then
    Ret {| st := setCurBlock d1 (int (curBlock d1 - 1));
           err := Some ErrRanOutOfBlocks; io := [] |}
  else
    match readCurBlock d1 with
    | Panic => Panic
    | Ret s1 =>
      match err s1 with
      | Some e =>
        let d2 := setCurBlock (st s1) (int (curBlock (st s1) - 1)) in
        match readCurBlock d2 with
        | Panic => Panic
        | Ret s2 => Ret {| st := st s2; err := Some e; io := io s1 ++ io s2 |}
        end
      | None => Ret s1
      end
    end.

Definition NewDataReader (rd : Reader) (off : Z) (sizes : list Z)
  : outcome (error + DataReader) :=
  let dr := {| r := rd; offset := off;
               blocks := fold_left (fun bs sz => bs ++ [NewDataBlockSize sz]) sizes [];
               curBlock := 0; curData := []; curReadOffset := 0 |} in
  match readCurBlock dr with
  | Panic => Panic
  | Ret s => match err s with
             | Some e => Ret (inl e)
             | None => Ret (inr (st s))
             end
  end.

(** The result of a [Read] call: it returned, it panicked, or the fuel
    ran out with the loop still going. *)
Inductive ReadResult : Type :=
| Returned (d : DataReader) (p : list byte) (n : Z) (e : option error)
| Panicked
| OutOfFuel (d : DataReader) (p : list byte).

(** [for i := 0; i < len(p); i++ { p[i] = d.curData[d.curReadOffset+i] }] *)
Fixpoint copyLoop (d : DataReader) (todo : nat) (i : Z) (p : list byte)
  : outcome (list byte) :=
  match todo with
  | O => Ret p
  | S todo' =>
    match index (curData d) (int (curReadOffset d + i)) with
    | None => Panic
    | Some b =>
      match store p i b with
      | None => Panic
      | Some p' => copyLoop d todo' (int (i + 1)) p'
      end
    end
  end.

(** The inner loop of the slow path; [todo] counts [len(p) - read]. *)
Fixpoint innerLoop (d : DataReader) (todo : nat) (read curRead : Z)
    (p : list byte) : outcome (Z * Z * list byte) :=
  match todo with
  | O => Ret (read, curRead, p)
  | S todo' =>
    let curRead' := int (curRead + 1) in
    if int (curReadOffset d + curRead') <? len (curData d) then
      match index (curData d) (int (curReadOffset d + curRead')) with
      | None => Panic
      | Some b =>
        match store p read b with
        | None => Panic
        | Some p' => innerLoop d todo' (int (read + 1)) curRead' p'
        end
      end
    else Ret (read, curRead', p)
  end.

(** The head of the outer loop body: move to the next block when the
    cursor sits exactly at the end of the cached one. *)
Definition refill (d : DataReader) (curRead : Z)
  : outcome (DataReader * Z * option error) :=
  if curReadOffset d =? len (curData d) then
    match readNextBlock d with
    | Panic => Panic
    | Ret s =>
      match err s with
      | Some e => Ret (st s, curRead, Some e)
      | None => Ret (st s, 0, None)
      end
    end
  else Ret (d, curRead, None).

Fixpoint outerLoop (fuel : nat) (d : DataReader) (read curRead : Z)
    (p : list byte) : ReadResult :=
  if read <? len p then
    match fuel with
    | O => OutOfFuel d p
    | S fuel' =>
      match refill d curRead with
      | Panic => Panicked
      | Ret (d', _, Some e) => Returned d' p read (Some e)
      | Ret (d', curRead', None) =>
        match innerLoop d' (Z.to_nat (len p - read)) read curRead' p with
        | Panic => Panicked
        | Ret (read', curRead'', p') => outerLoop fuel' d' read' curRead'' p'
        end
      end
    end
  else if negb (read =? len p) then Returned d p read (Some ErrNotEnoughData)
  else Returned d p read None.

Definition Read (fuel : nat) (d : DataReader) (p : list byte) : ReadResult :=
  if int (curReadOffset d + len p) <? len (curData d) then
    match copyLoop d (length p) 0 p with
    | Panic => Panicked
    | Ret p' =>
      Returned {| r := r d; offset := offset d; blocks := blocks d;
                  curBlock := curBlock d; curData := curData d;
                  curReadOffset := int (curReadOffset d + len p) |}
               p' (len p) None
    end
  else outerLoop fuel d 0 0 p.

End Data.

(** ** The File node (reader_file.go) *)

Module ReaderFile.

(** The inode type tags the file compares against; [OtherType] stands
    for every tag that is none of them. *)
Inductive InodeType : Type :=
| Dir | Fil | Sym | Block | Char | Fifo
| EDir | EFil | ESym | EBlock | EChar | EFifo
| OtherType (tag : Z).

#[export] Instance InodeType_eq_dec : EqDecision InodeType.
Proof. solve_decision. Defined.

(** The type-specific payload [i.Data], as far as the file asserts it. *)
Inductive InodeData : Type :=
| Device (Dev : Z)
| EDevice (Dev : Z)
| Symlink (Target : list byte)
| ESymlink (Target : list byte)
| NoData.

Record Inode : Type := {
  iType : InodeType;
  Data : InodeData
}.

Record Entry : Type := {
  Name : list byte
}.

Section Collaborators.

(** Types and operations declared outside the file: the value behind
    [io.Reader], [data.FullReader], an [io.Writer] and [fileInfo]. *)
Context {IOReader FullReader Writer fileInfo : Type}.
Variable rdr_Read : IOReader -> list byte -> IOReader * list byte * Z * option error.
Variable full_ReadAt : FullReader -> list byte -> Z -> list byte * Z * option error.
Variable full_WriteTo : FullReader -> Writer -> Writer * Z * option error.

(** The part of [Reader] that [ReadDir] uses: the entry list [e] the
    reader itself carries, and the two table lookups. *)
Record Reader : Type := {
  e : list Entry;
  readDirectory : Inode -> error + list Entry;
  newFileInfo : Entry -> error + fileInfo
}.

(** [parent] is left out: only [path] and [GetSymlinkFile] follow it. *)
Record File : Type := {
  i : Inode;
  rdr : option IOReader;
  fullRdr : option FullReader;
  r : Reader;
  f_e : Entry;
  dirsRead : Z
}.

Inductive DirEntry : Type :=
| FileInfoToDirEntry (fi : fileInfo).

Definition IsDir (f : File) : bool :=
  bool_decide (iType (i f) = Dir) || bool_decide (iType (i f) = EDir).

Definition IsRegular (f : File) : bool :=
  bool_decide (iType (i f) = Fil) || bool_decide (iType (i f) = EFil).

Definition notFile (f : File) : bool :=
  bool_decide (iType (i f) <> Fil) && bool_decide (iType (i f) <> EFil).

Definition setRdr (f : File) (x : option IOReader) : File :=
  {| i := i f; rdr := x; fullRdr := fullRdr f; r := r f; f_e := f_e f;
     dirsRead := dirsRead f |}.

(** [Read] has a value receiver; the reader behind the interface is
    shared, so its new state is handed back inside the File. *)
Definition Read (f : File) (p : list byte) : File * list byte * Z * option error :=
  if notFile f then (f, p, 0, Some ErrReadNotFile)
  else
    match rdr f with
    | None => (f, p, 0, Some fs_ErrClosed)
    | Some x =>
      let '(x', p', n, er) := rdr_Read x p in
      (setRdr f (Some x'), p', n, er)
    end.

Definition ReadAt (f : File) (p : list byte) (off : Z)
  : outcome (list byte * Z * option error) :=
  if notFile f then Ret (p, 0, Some ErrReadNotFile)
  else
    match fullRdr f with
    | None => Panic
    | Some fr => Ret (full_ReadAt fr p off)
    end.

Definition WriteTo (f : File) (w : Writer)
  : outcome (Writer * Z * option error) :=
  if notFile f then Ret (w, 0, Some ErrReadNotFile)
  else
    match fullRdr f with
    | None => Panic
    | Some fr => Ret (full_WriteTo fr w)
    end.

Definition Close (f : File) : File * option error :=
  (setRdr f None, None).

(** The [range] loop of [ReadDir]; [er] is the named result [err]. *)
Fixpoint collect (rd : Reader) (es : list Entry) (out : list DirEntry)
    (er : option error) : list DirEntry * option error :=
  match es with
  | [] => (out, er)
  | en :: es' =>
    match newFileInfo rd en with
    | inl x => (out, Some x)
    | inr fi => collect rd es' (out ++ [FileInfoToDirEntry fi]) None
    end
  end.

Definition addDirsRead (f : File) (k : Z) : File :=
  {| i := i f; rdr := rdr f; fullRdr := fullRdr f; r := r f; f_e := f_e f;
     dirsRead := int (dirsRead f + k) |}.

(** The slice returned by [readDirectory] is taken to have no spare
    capacity, so [ents[start:end]] panics past its length. *)
Definition ReadDir (f : File) (n : Z)
  : outcome (File * list DirEntry * option error) :=
  if negb (IsDir f) then Ret (f, [], Some ErrNotDirectory)
  else
    match readDirectory (r f) (i f) with
    | inl x => Ret (f, [], Some x)
    | inr ents =>
      let '(start, end_, er) :=
        if 0 <? n then
          let end_ := int (dirsRead f + n) in
          if len (e (r f)) <? end_
          then (dirsRead f, len (e (r f)), Some io_EOF)
          else (dirsRead f, end_, None)
        else (0, len ents, None) in
      match slice ents start end_ with
      | None => Panic
      | Some es =>
        let '(out, er') := collect (r f) es [] er in
        Ret (addDirsRead f (len out), out, er')
      end
    end.

Definition deviceDevices (f : File) : outcome (Z * Z) :=
  let dev :=
    if bool_decide (iType (i f) = Char) || bool_decide (iType (i f) = Block) then
      match Data (i f) with
      | Device d => Ret d
      | _ => Panic
      end
    else if bool_decide (iType (i f) = EChar) || bool_decide (iType (i f) = EBlock) then
      match Data (i f) with
      | EDevice d => Ret d
      | _ => Panic
      end
    else Ret 0 in
  match dev with
  | Panic => Panic
  | Ret d => Ret (Z.shiftr d 8, Z.land d 255)
  end.

(** A device node whose inode carries the packed device field [dev]:
    a plain device inode for [Char] and [Block], an extended one for
    [EChar] and [EBlock]. *)
Definition deviceField (f : File) (dev : Z) : Prop :=
  ((iType (i f) = Char \/ iType (i f) = Block) /\ Data (i f) = Device dev)
  \/ ((iType (i f) = EChar \/ iType (i f) = EBlock) /\ Data (i f) = EDevice dev).

End Collaborators.

(** *** Symbolic links, construction and the directory view *)

Section Nodes.

Context {IOReader FullReader fileInfo : Type}.

(** [r.inodeFromDir], [r.getReaders] and [f.parent.Open] are declared
    outside the file.  [parent_Open] panics where the call would: on a
    nil parent, or on a result that is not a [*File]. *)
Variable inodeFromDir : Entry -> error + Inode.
Variable getReaders : Inode -> error + (option FullReader * option IOReader).
Variable parent_Open : list byte -> outcome (error + @File IOReader FullReader fileInfo).

Definition newFile (rd : @Reader fileInfo) (en : Entry)
  : error + @File IOReader FullReader fileInfo :=
  match inodeFromDir en with
  | inl x => inl x
  | inr ino =>
    if bool_decide (iType ino = Fil) || bool_decide (iType ino = EFil) then
      match getReaders ino with
      | inl x => inl x
      | inr (full, rdr0) =>
        inr {| i := ino; rdr := rdr0; fullRdr := full; r := rd; f_e := en;
               dirsRead := 0 |}
      end
    else
      inr {| i := ino; rdr := None; fullRdr := None; r := rd; f_e := en;
             dirsRead := 0 |}
  end.




Definition IsSymlink (f : @File IOReader FullReader fileInfo) : bool :=
  bool_decide (iType (i f) = Sym) || bool_decide (iType (i f) = ESym).

Definition isDeviceOrFifo (f : @File IOReader FullReader fileInfo) : bool :=
  bool_decide (iType (i f) = Char) || bool_decide (iType (i f) = Block)
  || bool_decide (iType (i f) = EChar) || bool_decide (iType (i f) = EBlock)
  || bool_decide (iType (i f) = Fifo) || bool_decide (iType (i f) = EFifo).

Definition SymlinkPath (f : @File IOReader FullReader fileInfo) : outcome (list byte) :=
  match iType (i f) with
  | Sym =>
    match Data (i f) with
    | Symlink t => Ret t
    | _ => Panic
    end
  | ESym =>
    match Data (i f) with
    | ESymlink t => Ret t
    | _ => Panic
    end
  | _ => Ret []
  end.

(** [strings.HasPrefix]. *)
Fixpoint HasPrefix (s prefix : list byte) : bool :=
  match prefix with
  | [] => true
  | c :: prefix' =>
    match s with
    | [] => false
    | x :: s' => Strings.Byte.eqb x c && HasPrefix s' prefix'
    end
  end.

Definition GetSymlinkFile (f : @File IOReader FullReader fileInfo)
  : outcome (option (@File IOReader FullReader fileInfo)) :=
  if negb (IsSymlink f) then Ret None
  else
    match SymlinkPath f with
    | Panic => Panic
    | Ret target =>
      if HasPrefix target [x2f] then Ret None
      else
        match parent_Open target with
        | Panic => Panic
        | Ret (inl _) => Ret None
        | Ret (inr sym) => Ret (Some sym)
        end
    end.

End Nodes.

End ReaderFile.

Import Data.

(** * Vocabulary of the properties *)

(** The current-block index names a block of the list. *)
Definition blockIndexOK (d : DataReader) : Prop :=
  0 <= curBlock d < len (blocks d).

(** Successive [Read] calls, each of which returns. *)
Fixpoint readAll (fuel : nat) (d : DataReader) (ps : list (list byte))
  : option DataReader :=
  match ps with
  | [] => Some d
  | p :: ps' =>
    match Read fuel d p with
    | Returned d' _ _ _ => readAll fuel d' ps'
    | _ => None
    end
  end.

(** The reader a [Read] call stopped in, returned or still looping. *)
Definition lastState (x : ReadResult) : option DataReader :=
  match x with
  | Returned d _ _ _ => Some d
  | OutOfFuel d _ => Some d
  | Panicked => None
  end.

(** The call came back to its caller. *)
Definition returns (x : ReadResult) : bool :=
  match x with
  | Returned _ _ _ _ => true
  | _ => false
  end.

(** Successive [Read] calls that each return without error, with the
    bytes they delivered put end to end. *)
Fixpoint readChunks (fuel : nat) (d : DataReader) (ps : list (list byte))
  : option (DataReader * list byte) :=
  match ps with
  | [] => Some (d, [])
  | p :: ps' =>
    match Read fuel d p with
    | Returned d' p' n None =>
      match readChunks fuel d' ps' with
      | Some (d'', out) => Some (d'', take (Z.to_nat n) p' ++ out)
      | None => None
      end
    | _ => None
    end
  end.

(** [k] advances to the next block, each of which succeeds. *)
Fixpoint advance (k : nat) (d : DataReader) : option DataReader :=
  match k with
  | O => Some d
  | S k' =>
    match readNextBlock d with
    | Ret s =>
      match err s with
      | None => advance k' (st s)
      | Some _ => None
      end
    | Panic => None
    end
  end.

(** The on-disk sizes of a block list, added up. *)
Definition sumSizes (bs : list DataBlock) : Z :=
  foldr Z.add 0 (size <$> bs).

(** The blocks up to the current one lie end to end in the image from
    [base] on: each records the end of its predecessor as its start, and
    the image offset is the end of the current block. *)
Definition tiled (base : Z) (d : DataReader) : Prop :=
  offset d = base + sumSizes (take (S (Z.to_nat (curBlock d))) (blocks d))
  /\ forall (j : nat) (b : DataBlock),
      (j <= Z.to_nat (curBlock d))%nat ->
      blocks d !! j = Some b ->
      begOffset b = base + sumSizes (take j (blocks d)).

(** [ReadDir(n)] called over and over until it reports [io.EOF], with
    the entries it returned put end to end. *)
Fixpoint readDirUntilEOF {IOReader FullReader fileInfo : Type} (fuel : nat)
    (f : @ReaderFile.File IOReader FullReader fileInfo) (n : Z)
  : option (list (@ReaderFile.DirEntry fileInfo)) :=
  match fuel with
  | O => None
  | S fuel' =>
    match ReaderFile.ReadDir f n with
    | Ret (f', out, None) => app out <$> readDirUntilEOF fuel' f' n
    | Ret (_, out, Some io_EOF) => Some out
    | _ => None
    end
  end.

(** * Concrete readers and nodes *)

(** A file system with block size [bs] whose image cannot be read. *)
Definition noImage (bs : Z) : Reader :=
  {| super_BlockSize := bs;
     copySection := fun _ _ => inl (ErrExternal 5);
     Decompress := fun _ _ => inl (ErrExternal 5) |}.

(** One sparse block, not yet materialized. *)
Definition sparseStart : DataReader :=
  {| r := noImage 4; offset := 96; blocks := [NewDataBlockSize 1];
     curBlock := 0; curData := []; curReadOffset := 0 |}.

(** The reader [NewDataReader] builds over one sparse block. *)
Definition sparseReader : DataReader :=
  {| r := noImage 4; offset := 96;
     blocks := [ {| begOffset := 96; size := 0; compressed := false;
                    uncompressedSize := 4 |} ];
     curBlock := 0; curData := [x00; x00; x00; x00]; curReadOffset := 0 |}.

(** The bytes of [img] in [off, off + n), cut short at the end of the
    image: what [io.Copy] gathers from a section of an in-memory image. *)
Fixpoint readAt (img : list byte) (off n : Z) : list byte :=
  match img with
  | [] => []
  | b :: img' =>
    if 0 <? off then readAt img' (off - 1) n
    else if 0 <? n then b :: readAt img' 0 (n - 1)
    else []
  end.

(** An in-memory image whose compressed blocks do not decode. *)
Definition imageReader (bs : Z) (img : list byte) : Reader :=
  {| super_BlockSize := bs;
     copySection := fun off n => inr (readAt img off n);
     Decompress := fun _ _ => inl (ErrExternal 7) |}.

Definition image8 : list byte := [x0a; x14; x1e; x28; x32; x3c; x46; x50].

(** Two 4-byte blocks at the start of [image8]: the first stored raw,
    the second compressed. *)
Definition rawThenPacked : list DataBlock :=
  [ {| begOffset := 0; size := 4; compressed := false; uncompressedSize := 4 |};
    {| begOffset := 0; size := 4; compressed := true; uncompressedSize := 0 |} ].

(** The reader over [rawThenPacked] before block 0 is materialized. *)
Definition rawStart : DataReader :=
  {| r := imageReader 4 image8; offset := 0; blocks := rawThenPacked;
     curBlock := 0; curData := []; curReadOffset := 0 |}.

(** [rawStart] with block 0 materialized. *)
Definition rawReader : DataReader :=
  {| r := imageReader 4 image8; offset := 4; blocks := rawThenPacked;
     curBlock := 0; curData := [x0a; x14; x1e; x28]; curReadOffset := 0 |}.

(** An empty cached block followed by the two blocks of [image8]. *)
Definition emptyCache : DataReader :=
  {| r := imageReader 4 image8; offset := 0;
     blocks := {| begOffset := 0; size := 0; compressed := false;
                  uncompressedSize := 0 |} :: rawThenPacked;
     curBlock := 0; curData := []; curReadOffset := 0 |}.

(** One sparse block on a file system whose block size is 0: the cache
    is empty and the block is the last one. *)
Definition emptyLast : DataReader :=
  {| r := noImage 0; offset := 96;
     blocks := [ {| begOffset := 96; size := 0; compressed := false;
                    uncompressedSize := 0 |} ];
     curBlock := 0; curData := []; curReadOffset := 0 |}.

(** A file system whose first compressed block, the 2^25 bytes at image
    offset 0, decodes to no bytes; the 2^25 bytes at offset 2^25 decode
    to 01 02 03, and no other section decodes. *)
Definition flakyImage : Reader :=
  {| super_BlockSize := 4;
     copySection := fun _ _ => inr [];
     Decompress := fun off n =>
       if (off =? 0) && (n =? 2 ^ 25) then inr []
       else if (off =? 2 ^ 25) && (n =? 2 ^ 25) then inr [x01; x02; x03]
       else inl (ErrExternal 7) |}.

(** Collaborators of the File examples: a reader, a full reader and a
    sink that hold no state, and entries that serve as their own info. *)
Definition idleRead (x : unit) (p : list byte) : unit * list byte * Z * option error :=
  (x, p, 0, Some io_EOF).

Definition idleReadAt (x : unit) (p : list byte) (off : Z) : list byte * Z * option error :=
  (p, 0, Some io_EOF).

Definition idleWriteTo (x : unit) (w : unit) : unit * Z * option error :=
  (w, 0, None).

Definition entry (c : byte) : ReaderFile.Entry := {| ReaderFile.Name := [c] |}.

(** An archive whose root holds one directory, "d", which holds the
    three entries "a", "b" and "c". *)
Definition archive : @ReaderFile.Reader ReaderFile.Entry :=
  {| ReaderFile.e := [entry x64];
     ReaderFile.readDirectory := fun _ => inr [entry x61; entry x62; entry x63];
     ReaderFile.newFileInfo := fun en => inr en |}.

Definition node (t : ReaderFile.InodeType) (dat : ReaderFile.InodeData)
    (rd : option unit) (c : byte) : @ReaderFile.File unit unit ReaderFile.Entry :=
  {| ReaderFile.i := {| ReaderFile.iType := t; ReaderFile.Data := dat |};
     ReaderFile.rdr := rd; ReaderFile.fullRdr := rd;
     ReaderFile.r := archive; ReaderFile.f_e := entry c;
     ReaderFile.dirsRead := 0 |}.

(** The directory "d", a regular file "a" with its readers open, and a
    block device 8:1. *)
Definition dirD := node ReaderFile.Dir ReaderFile.NoData None x64.

Definition fileA := node ReaderFile.Fil ReaderFile.NoData (Some tt) x61.

Definition devSda1 := node ReaderFile.Block (ReaderFile.Device 2049) None x73.

(** An archive whose root holds "a", "b" and "c": the reader's own
    entry list is that of the directory. *)
Definition rootArchive : @ReaderFile.Reader ReaderFile.Entry :=
  {| ReaderFile.e := [entry x61; entry x62; entry x63];
     ReaderFile.readDirectory := fun _ => inr [entry x61; entry x62; entry x63];
     ReaderFile.newFileInfo := fun en => inr en |}.

Definition rootDir : @ReaderFile.File unit unit ReaderFile.Entry :=
  {| ReaderFile.i := {| ReaderFile.iType := ReaderFile.Dir;
                        ReaderFile.Data := ReaderFile.NoData |};
     ReaderFile.rdr := None; ReaderFile.fullRdr := None;
     ReaderFile.r := rootArchive; ReaderFile.f_e := entry x2f;
     ReaderFile.dirsRead := 0 |}.

(** The same directory in an archive that has no info for "b". *)
Definition gapArchive : @ReaderFile.Reader ReaderFile.Entry :=
  {| ReaderFile.e := [entry x61; entry x62; entry x63];
     ReaderFile.readDirectory := fun _ => inr [entry x61; entry x62; entry x63];
     ReaderFile.newFileInfo := fun en =>
       match ReaderFile.Name en with
       | [x62] => inl (ErrExternal 9)
       | _ => inr en
       end |}.

Definition gapDir : @ReaderFile.File unit unit ReaderFile.Entry :=
  {| ReaderFile.i := {| ReaderFile.iType := ReaderFile.Dir;
                        ReaderFile.Data := ReaderFile.NoData |};
     ReaderFile.rdr := None; ReaderFile.fullRdr := None;
     ReaderFile.r := gapArchive; ReaderFile.f_e := entry x2f;
     ReaderFile.dirsRead := 0 |}.

(** Inode lookup for the examples: "a" is a regular file, every other
    entry a FIFO; readers are handed out for every inode asked about. *)
Definition inodeOf (en : ReaderFile.Entry) : error + ReaderFile.Inode :=
  match ReaderFile.Name en with
  | [x61] => inr {| ReaderFile.iType := ReaderFile.Fil; ReaderFile.Data := ReaderFile.NoData |}
  | _ => inr {| ReaderFile.iType := ReaderFile.Fifo; ReaderFile.Data := ReaderFile.NoData |}
  end.

Definition readersOf (ino : ReaderFile.Inode) : error + (option unit * option unit) :=
  inr (Some tt, Some tt).

(** A symbolic link to "a", and a parent that opens "a" only. *)
Definition linkToA := node ReaderFile.Sym (ReaderFile.Symlink [x61]) None x6c.

Definition openInD (path : list byte)
  : outcome (error + @ReaderFile.File unit unit ReaderFile.Entry) :=
  match path with
  | [x61] => Ret (inr fileA)
  | _ => Ret (inl (ErrExternal 2))
  end.

(** * Properties of the data reader *)

(** ** Decoding a packed size *)

Section BlockDescriptor.

Lemma land_1_mod2 (raw : Z) : Z.land raw 1 = raw mod 2.
Proof. change 1 with (Z.ones 1). now rewrite Z.land_ones. Qed.

Lemma ldiff_1_even (raw : Z) : Z.ldiff raw 1 = 2 * (raw / 2).
Proof.
  change 1 with (Z.ones 1).
  rewrite Z.ldiff_ones_r by lia.
  rewrite Z.shiftl_mul_pow2, Z.shiftr_div_pow2 by lia.
  change (2 ^ 1) with 2. lia.
Qed.

(** The compressed flag is decided by bit 0 of the packed value. *)
Lemma NewDataBlockSize_compressed (raw : Z) :
  compressed (NewDataBlockSize raw) = Z.even raw.
Proof.
  unfold NewDataBlockSize; cbn [compressed].
  rewrite land_1_mod2, Z.shiftl_mul_pow2 by lia.
  rewrite Zeven_mod.
  pose proof (Z.mod_pos_bound raw 2 ltac:(lia)) as Hb.
  assert (raw mod 2 = 0 \/ raw mod 2 = 1) as [-> | ->] by lia; reflexivity.
Qed.

(** The size is the packed value with bit 0 cleared, moved up by 24
    bits inside 32: only bits 1..7 of the packed value survive. *)
Lemma NewDataBlockSize_size (raw : Z) :
  size (NewDataBlockSize raw) = (2 * (raw / 2)) mod 2 ^ 8 * 2 ^ 24.
Proof.
  unfold NewDataBlockSize; cbn [size]. unfold u32.
  rewrite ldiff_1_even, Z.shiftl_mul_pow2 by lia.
  change (2 ^ 32) with (2 ^ 8 * 2 ^ 24).
  rewrite Z.mul_mod_distr_r by lia. reflexivity.
Qed.

Lemma NewDataBlockSize_size_multiple (raw : Z) :
  (2 ^ 25 | size (NewDataBlockSize raw)).
Proof.
  rewrite NewDataBlockSize_size.
  change (2 ^ 8) with (2 * 2 ^ 7).
  rewrite Z.mul_mod_distr_l by lia.
  exists ((raw / 2) mod 2 ^ 7).
  change (2 ^ 25) with (2 * 2 ^ 24). lia.
Qed.

(** C1.  The decoder's behaviour on packed values in which neither bit 31
    nor bit 24 is set (5), bit 31 is set (2^31 + 4) and bit 24 is set
    (2^24 + 4): the compressed flag follows bit 0 and the size is the
    value shifted up by 24 bits, so the flag is not read from the top bit
    and the size is not the packed value with a flag bit masked off. *)
Theorem NewDataBlockSize_reads_bit0_and_shifts :
  NewDataBlockSize 5 =
    {| begOffset := 0; size := 67108864; compressed := false;
       uncompressedSize := 67108864 |}
  /\ Z.testbit 5 31 = false /\ Z.testbit 5 24 = false
  /\ NewDataBlockSize (2 ^ 31 + 4) =
    {| begOffset := 0; size := 67108864; compressed := true;
       uncompressedSize := 0 |}
  /\ Z.testbit (2 ^ 31 + 4) 31 = true
  /\ NewDataBlockSize (2 ^ 24 + 4) =
    {| begOffset := 0; size := 67108864; compressed := true;
       uncompressedSize := 0 |}
  /\ Z.testbit (2 ^ 24 + 4) 24 = true.
Proof. repeat split; vm_compute; reflexivity. Qed.

End BlockDescriptor.

(** ** Materializing a block *)

Section Materialize.

Lemma index_Some_range {A} (l : list A) (k : Z) (x : A) :
  index l k = Some x -> 0 <= k < len l.
Proof.
  unfold index, len. destruct (Z.leb_spec 0 k) as [Hk | Hk]; [| discriminate].
  intros Hl. apply lookup_lt_Some in Hl. lia.
Qed.

Lemma index_in_range {A} (l : list A) (k : Z) :
  0 <= k < len l -> exists x, index l k = Some x.
Proof.
  unfold index, len. intros Hk.
  destruct (Z.leb_spec 0 k) as [_ | ?]; [| lia].
  apply lookup_lt_is_Some. lia.
Qed.

Lemma len_replicate {A} (n : Z) (x : A) :
  0 <= n -> len (replicate (Z.to_nat n) x) = n.
Proof. intros Hn. unfold len. rewrite length_replicate. lia. Qed.

(** C5.  A block whose on-disk size is 0 materializes as a buffer of
    exactly the configured block size, every byte zero; no section of
    the image is requested and the image offset stays where it was. *)
Theorem readCurBlock_sparse (d : DataReader) (b : DataBlock) :
  index (blocks d) (curBlock d) = Some b ->
  size b = 0 ->
  0 <= super_BlockSize (r d) ->
  exists s,
    readCurBlock d = Ret s
    /\ err s = None
    /\ io s = []
    /\ len (curData (st s)) = super_BlockSize (r d)
    /\ Forall (fun x => x = x00) (curData (st s))
    /\ offset (st s) = offset d.
Proof.
  intros Hb Hs Hbs.
  pose proof (index_Some_range _ _ _ Hb) as Hr.
  unfold readCurBlock.
  destruct (Z.leb_spec (len (blocks d)) (curBlock d)) as [? | _]; [lia |].
  rewrite Hb, Hs. cbn [Z.eqb].
  eexists. split; [reflexivity |]. cbn [st err io curData offset].
  repeat split.
  - now apply len_replicate.
  - apply Forall_replicate. reflexivity.
Qed.

Lemma readCurBlock_sparse_witness :
  exists s,
    readCurBlock sparseStart = Ret s
    /\ err s = None
    /\ io s = []
    /\ len (curData (st s)) = 4
    /\ Forall (fun x => x = x00) (curData (st s))
    /\ offset (st s) = 96.
Proof.
  apply (readCurBlock_sparse sparseStart (NewDataBlockSize 1)).
  - reflexivity.
  - reflexivity.
  - vm_compute. discriminate.
Defined.

End Materialize.

(** ** The current-block index *)

Section BlockIndex.

Lemma int_id (x : Z) : - 2 ^ 63 <= x < 2 ^ 63 -> int x = x.
Proof. intros Hx. unfold int. rewrite Z.mod_small; lia. Qed.

Lemma len_nonneg {A} (l : list A) : 0 <= len l.
Proof. unfold len. lia. Qed.

Lemma len_setBlock (d : DataReader) (b : DataBlock) :
  len (setBlock d b) = len (blocks d).
Proof. unfold len, setBlock. now rewrite length_insert. Qed.

Lemma readCurBlock_frame (d : DataReader) (s : step) :
  readCurBlock d = Ret s ->
  curBlock (st s) = curBlock d
  /\ len (blocks (st s)) = len (blocks d)
  /\ curReadOffset (st s) = curReadOffset d
  /\ r (st s) = r d.
Proof.
  unfold readCurBlock.
  repeat case_match; intros [= <-]; cbn [st curBlock blocks curReadOffset r];
    rewrite ?len_setBlock; auto.
Qed.

Lemma readNextBlock_index (d : DataReader) (s : step) :
  len (blocks d) < 2 ^ 63 ->
  blockIndexOK d ->
  readNextBlock d = Ret s ->
  blockIndexOK (st s) /\ len (blocks (st s)) = len (blocks d).
Proof.
  unfold blockIndexOK, readNextBlock. intros Hlen Hd.
  cbn [setCurBlock curBlock blocks].
  rewrite (int_id (curBlock d + 1)) by lia.
  destruct (Z.leb_spec (len (blocks d)) (curBlock d + 1)) as [Hend | Hmore].
  - intros [= <-]. cbn [st setCurBlock curBlock blocks].
    rewrite int_id by lia. lia.
  - destruct (readCurBlock _) as [s1 |] eqn:H1; [| discriminate].
    apply readCurBlock_frame in H1 as (Hc1 & Hl1 & _ & _).
    cbn [setCurBlock curBlock blocks] in Hc1, Hl1.
    destruct (err s1) as [e1 |].
    + destruct (readCurBlock _) as [s2 |] eqn:H2; [| discriminate].
      apply readCurBlock_frame in H2 as (Hc2 & Hl2 & _ & _).
      cbn [setCurBlock curBlock blocks] in Hc2, Hl2.
      intros [= <-]. cbn [st].
      rewrite Hc2, Hl2, Hc1, Hl1. rewrite int_id by lia. lia.
    + intros [= <-]. rewrite Hc1, Hl1. lia.
Qed.

Lemma fold_append_blocks (sizes : list Z) (acc : list DataBlock) :
  fold_left (fun bs sz => bs ++ [NewDataBlockSize sz]) sizes acc
  = acc ++ map NewDataBlockSize sizes.
Proof.
  revert acc. induction sizes as [| sz sizes IH]; intros acc; cbn.
  - now rewrite app_nil_r.
  - rewrite IH, <- app_assoc. reflexivity.
Qed.

Lemma outerLoop_index (fuel : nat) :
  forall (d : DataReader) (read curRead : Z) (p : list byte) (d' : DataReader),
    len (blocks d) < 2 ^ 63 ->
    blockIndexOK d ->
    lastState (outerLoop fuel d read curRead p) = Some d' ->
    blockIndexOK d' /\ len (blocks d') = len (blocks d).
Proof.
  induction fuel as [| fuel IH]; intros d read curRead p d' Hlen Hd; cbn [outerLoop].
  - destruct (read <? len p).
    + intros [= <-]. auto.
    + destruct (negb _); intros [= <-]; auto.
  - destruct (read <? len p).
    + unfold refill.
      destruct (curReadOffset d =? len (curData d)).
      * destruct (readNextBlock d) as [s |] eqn:Hn; [| discriminate].
        apply readNextBlock_index in Hn as [Hs Hl]; auto.
        destruct (err s).
        -- intros [= <-]. auto.
        -- destruct (innerLoop _ _ _ _ _) as [[[read' cr'] p'] |]; [| discriminate].
           intros Hrec. apply IH in Hrec; [| lia | assumption].
           destruct Hrec. split; [assumption | lia].
      * destruct (innerLoop _ _ _ _ _) as [[[read' cr'] p'] |]; [| discriminate].
        intros Hrec. now apply IH in Hrec.
    + destruct (negb _); intros [= <-]; auto.
Qed.

Lemma Read_index (fuel : nat) (d : DataReader) (p : list byte) (d' : DataReader) :
  len (blocks d) < 2 ^ 63 ->
  blockIndexOK d ->
  lastState (Read fuel d p) = Some d' ->
  blockIndexOK d' /\ len (blocks d') = len (blocks d).
Proof.
  intros Hlen Hd. unfold Read.
  destruct (_ <? _).
  - destruct (copyLoop _ _ _ _); [| discriminate].
    intros [= <-]. auto.
  - now apply outerLoop_index.
Qed.

Lemma readAll_index (fuel : nat) (ps : list (list byte)) :
  forall d d',
    len (blocks d) < 2 ^ 63 ->
    blockIndexOK d ->
    readAll fuel d ps = Some d' ->
    blockIndexOK d'.
Proof.
  induction ps as [| p ps IH]; intros d d' Hlen Hd; cbn [readAll].
  - intros [= <-]. assumption.
  - destruct (Read fuel d p) as [d1 p1 n1 e1 | | d1 p1] eqn:HR; try discriminate.
    assert (Hl : lastState (Read fuel d p) = Some d1) by now rewrite HR.
    apply Read_index in Hl as [Hd1 Hl1]; auto.
    apply IH; [lia | assumption].
Qed.

(** C10.  Construction over an empty size list fails; a reader that
    [NewDataReader] returns has a non-empty block list, and after
    construction and after every [Read] call that follows the
    current-block index lies in [0, number of blocks). *)
Theorem NewDataReader_block_index (rd : Reader) (off : Z) (sizes : list Z) :
  len sizes < 2 ^ 63 ->
  NewDataReader rd off [] = Ret (inl io_EOF)
  /\ forall d,
      NewDataReader rd off sizes = Ret (inr d) ->
      blocks d <> []
      /\ blockIndexOK d
      /\ forall fuel ps d', readAll fuel d ps = Some d' -> blockIndexOK d'.
Proof.
  intros Hlen. split; [reflexivity |].
  intros d. unfold NewDataReader.
  rewrite fold_append_blocks, app_nil_l.
  destruct (readCurBlock _) as [s |] eqn:Hs; [| discriminate].
  destruct (err s) as [e |] eqn:He; [discriminate |].
  intros [= <-].
  pose proof (readCurBlock_frame _ _ Hs) as (Hc & Hl & _ & _).
  cbn [curBlock blocks] in Hc, Hl.
  assert (Hne : 0 < len (map NewDataBlockSize sizes)).
  { revert Hs He. unfold readCurBlock. cbn [curBlock blocks].
    destruct (Z.leb_spec (len (map NewDataBlockSize sizes)) 0) as [? | ?]; [| lia].
    intros [= <-]. discriminate. }
  assert (Hok : blockIndexOK (st s)).
  { unfold blockIndexOK. rewrite Hc, Hl. lia. }
  assert (Hlen' : len (blocks (st s)) < 2 ^ 63).
  { rewrite Hl. unfold len in *. rewrite length_map. assumption. }
  split; [| split; [exact Hok |]].
  - intros Hnil. unfold len in Hl, Hne. rewrite Hnil in Hl. cbn in Hl. lia.
  - intros fuel ps d'. now apply readAll_index.
Qed.

(** Three sparse blocks on a file system whose block size is 0: every
    cached block is empty, so a [Read] walks the block list to its end
    and stops on the last block. *)
Lemma NewDataReader_block_index_witness :
  exists d d',
    NewDataReader (noImage 0) 96 [1; 1; 1] = Ret (inr d)
    /\ readAll 3 d [[xff]] = Some d'
    /\ curBlock d' = 2
    /\ blockIndexOK d'.
Proof.
  eexists. eexists.
  split; [reflexivity |].
  split; [vm_compute; reflexivity |].
  split; [reflexivity |].
  assert (Hlen : len [1; 1; 1] < 2 ^ 63) by (vm_compute; reflexivity).
  destruct (NewDataReader_block_index (noImage 0) 96 [1; 1; 1] Hlen) as [_ Hd].
  destruct (Hd _ eq_refl) as (_ & _ & Hall).
  apply (Hall 3%nat [[xff]]).
  vm_compute. reflexivity.
Defined.

End BlockIndex.

(** ** Reads that reach the end of the cached block *)

Section SlowPath.

Lemma int_range (x : Z) : - 2 ^ 63 <= int x < 2 ^ 63.
Proof.
  unfold int. pose proof (Z.mod_pos_bound (x + 2 ^ 63) (2 ^ 64) ltac:(lia)). lia.
Qed.

Lemma int_add_int (a b : Z) : int (a + int b) = int (a + b).
Proof.
  unfold int. f_equal.
  replace (a + ((b + 2 ^ 63) mod 2 ^ 64 - 2 ^ 63) + 2 ^ 63)
    with (a + (b + 2 ^ 63) mod 2 ^ 64) by lia.
  rewrite Zplus_mod_idemp_r. f_equal. lia.
Qed.

Lemma int_succ_cursor (o c : Z) : int (o + int (c + 1)) = int (int (o + c) + 1).
Proof.
  rewrite int_add_int.
  replace (int (o + c) + 1) with (1 + int (o + c)) by lia.
  rewrite int_add_int. f_equal. lia.
Qed.

Lemma int_max_succ : int (2 ^ 63 - 1 + 1) = - 2 ^ 63.
Proof. reflexivity. Qed.

Lemma len_store {A} (l l' : list A) (k : Z) (x : A) :
  store l k x = Some l' -> len l' = len l.
Proof.
  unfold store. destruct (_ && _); [| discriminate].
  intros [= <-]. unfold len. now rewrite length_insert.
Qed.

Lemma store_in_range {A} (l : list A) (k : Z) (x : A) :
  0 <= k < len l -> exists l', store l k x = Some l'.
Proof.
  intros Hk. unfold store.
  destruct (Z.leb_spec 0 k); [| lia].
  destruct (Z.ltb_spec k (len l)); [| lia].
  eexists. reflexivity.
Qed.

(** Once the sum of cursor and counter has reached the end of the cached
    block while the cursor itself is not there, an iteration of the
    outer loop changes nothing but the counter; the counter grows until
    the sum wraps around and the index goes negative. *)
Lemma outerLoop_stuck (fuel : nat) :
  forall (d : DataReader) (read curRead : Z) (p : list byte),
    read < len p ->
    curReadOffset d <> len (curData d) ->
    len (curData d) - 1 <= int (curReadOffset d + curRead) ->
    returns (outerLoop fuel d read curRead p) = false.
Proof.
  induction fuel as [| fuel IH]; intros d read curRead p Hread Ho Hs; cbn [outerLoop].
  - destruct (Z.ltb_spec read (len p)); [reflexivity | lia].
  - destruct (Z.ltb_spec read (len p)); [| lia].
    unfold refill.
    destruct (Z.eqb_spec (curReadOffset d) (len (curData d))); [contradiction |].
    destruct (Z.to_nat (len p - read)) as [| todo] eqn:Htodo; [lia |].
    cbn [innerLoop].
    rewrite int_succ_cursor.
    pose proof (int_range (curReadOffset d + curRead)) as Hr.
    pose proof (len_nonneg (curData d)) as Hn.
    destruct (Z.eq_dec (int (curReadOffset d + curRead)) (2 ^ 63 - 1)) as [Hmax | Hmax].
    + rewrite Hmax, int_max_succ.
      destruct (Z.ltb_spec (- 2 ^ 63) (len (curData d))); [| lia].
      reflexivity.
    + rewrite (int_id (int (curReadOffset d + curRead) + 1)) by lia.
      destruct (Z.ltb_spec (int (curReadOffset d + curRead) + 1) (len (curData d))); [lia |].
      apply IH; auto.
      rewrite int_succ_cursor, int_id; lia.
Qed.

(** The first pass of the inner loop when the request runs past the end
    of the cached block: it stops at the end of the block with the
    buffer not yet full. *)
Lemma innerLoop_stops_short (d : DataReader) (todo : nat) :
  forall (read curRead : Z) (p : list byte),
    0 <= curReadOffset d -> 0 <= curRead -> 0 <= read ->
    curReadOffset d + curRead < len (curData d) ->
    len (curData d) < 2 ^ 62 -> len p < 2 ^ 62 ->
    read + Z.of_nat todo = len p ->
    len (curData d) - 1 - (curReadOffset d + curRead) < Z.of_nat todo ->
    exists read' curRead' p',
      innerLoop d todo read curRead p = Ret (read', curRead', p')
      /\ read' < len p'
      /\ len (curData d) - 1 <= int (curReadOffset d + curRead').
Proof.
  induction todo as [| todo IH]; intros read curRead p Ho Hc Hrd Hlt Hn Hp Hsum Hmore.
  - lia.
  - cbn [innerLoop].
    rewrite (int_id (curRead + 1)) by lia.
    rewrite (int_id (curReadOffset d + (curRead + 1))) by lia.
    destruct (Z.ltb_spec (curReadOffset d + (curRead + 1)) (len (curData d))) as [Hin | Hout].
    + destruct (index_in_range (curData d) (curReadOffset d + (curRead + 1)) ltac:(lia))
        as [b ->].
      destruct (store_in_range p read b ltac:(lia)) as [p' Hp'].
      rewrite Hp'. apply len_store in Hp'.
      rewrite (int_id (read + 1)) by lia.
      apply IH; lia.
    + exists read, (curRead + 1), p. split; [reflexivity |].
      split; [lia |].
      rewrite int_id; lia.
Qed.

(** A [Read] whose request reaches or passes the end of a non-empty
    cached block never returns, whatever the fuel. *)
Lemma Read_to_block_end_never_returns (fuel : nat) (d : DataReader) (p : list byte) :
  0 <= curReadOffset d < len (curData d) ->
  len (curData d) <= curReadOffset d + len p ->
  len (curData d) < 2 ^ 62 -> len p < 2 ^ 62 ->
  returns (Read fuel d p) = false.
Proof.
  intros Ho Hreq Hn Hp. unfold Read.
  rewrite int_id by lia.
  destruct (Z.ltb_spec (curReadOffset d + len p) (len (curData d))); [lia |].
  destruct fuel as [| fuel]; cbn [outerLoop].
  - destruct (Z.ltb_spec 0 (len p)); [reflexivity | lia].
  - destruct (Z.ltb_spec 0 (len p)); [| lia].
    unfold refill.
    destruct (Z.eqb_spec (curReadOffset d) (len (curData d))); [lia |].
    destruct (innerLoop_stops_short d (Z.to_nat (len p - 0)) 0 0 p)
      as (read' & curRead' & p' & -> & Hread' & Hs); try lia.
    now apply outerLoop_stuck.
Qed.

End SlowPath.

(** ** Reads inside the cached block *)

Section FastPath.

Lemma copyLoop_copies (d : DataReader) :
  forall (rest done : list byte) (k : Z),
    k = len done ->
    0 <= curReadOffset d ->
    curReadOffset d + k + len rest <= len (curData d) ->
    len (curData d) < 2 ^ 63 ->
    copyLoop d (length rest) k (done ++ rest)
    = Ret (done ++ take (length rest) (drop (Z.to_nat (curReadOffset d + k)) (curData d))).
Proof.
  induction rest as [| x rest IH]; intros done k Hk Ho Hfit Hn.
  - reflexivity.
  - cbn [copyLoop length].
    assert (Hk0 : 0 <= k) by (subst k; apply len_nonneg).
    assert (Hrest : len (x :: rest) = len rest + 1) by (unfold len; cbn [length]; lia).
    pose proof (len_nonneg rest) as Hr0.
    rewrite (int_id (curReadOffset d + k)) by lia.
    destruct (index_in_range (curData d) (curReadOffset d + k) ltac:(lia)) as [b Hb].
    rewrite Hb.
    unfold index in Hb. destruct (Z.leb_spec 0 (curReadOffset d + k)); [| lia].
    unfold store.
    assert (Hlen : len (done ++ x :: rest) = k + len rest + 1).
    { unfold len in *. rewrite length_app. cbn [length]. lia. }
    destruct (Z.leb_spec 0 k); [| lia].
    destruct (Z.ltb_spec k (len (done ++ x :: rest))); [| lia].
    cbn [andb].
    replace (Z.to_nat k) with (length done + 0)%nat by (unfold len in Hk; lia).
    rewrite insert_app_r. cbn [insert list_insert].
    rewrite (int_id (k + 1)) by lia.
    rewrite (cons_middle b done rest), app_assoc.
    rewrite IH; try lia.
    + rewrite <- app_assoc. do 2 f_equal.
      rewrite (drop_S _ _ _ Hb). cbn [app take].
      do 3 f_equal. lia.
    + unfold len in *. rewrite length_app. cbn [length]. lia.
Qed.

(** A request that ends strictly before the end of the cached block is
    served from the cache: the buffer receives the next [len(p)] bytes
    and the cursor moves past them. *)
Lemma Read_within_block (fuel : nat) (d : DataReader) (p : list byte) :
  0 <= curReadOffset d ->
  curReadOffset d + len p < len (curData d) ->
  len (curData d) < 2 ^ 63 ->
  Read fuel d p
  = Returned {| r := r d; offset := offset d; blocks := blocks d;
                curBlock := curBlock d; curData := curData d;
                curReadOffset := curReadOffset d + len p |}
             (take (length p) (drop (Z.to_nat (curReadOffset d)) (curData d)))
             (len p) None.
Proof.
  intros Ho Hfit Hn. unfold Read.
  pose proof (len_nonneg p) as Hp.
  rewrite (int_id (curReadOffset d + len p)) by lia.
  destruct (Z.ltb_spec (curReadOffset d + len p) (len (curData d))); [| lia].
  pose proof (copyLoop_copies d p [] 0 eq_refl Ho ltac:(lia) Hn) as Hc.
  cbn [app] in Hc. rewrite Hc, Z.add_0_r. reflexivity.
Qed.

(** X2.  However a total that stays strictly inside the cached block is split
    into calls, the calls deliver the same bytes: the next ones of the
    block, in order. *)
Lemma readChunks_within_block (fuel : nat) (ps : list (list byte)) :
  forall d : DataReader,
    0 <= curReadOffset d ->
    curReadOffset d + len (concat ps) < len (curData d) ->
    len (curData d) < 2 ^ 63 ->
    exists d',
      readChunks fuel d ps
      = Some (d', take (length (concat ps)) (drop (Z.to_nat (curReadOffset d)) (curData d)))
      /\ curData d' = curData d
      /\ curReadOffset d' = curReadOffset d + len (concat ps).
Proof.
  induction ps as [| p ps IH]; intros d Ho Hfit Hn.
  - exists d. cbn. split; [reflexivity | split; [reflexivity |]].
    unfold len. cbn. lia.
  - cbn [readChunks concat] in *.
    assert (Hsum : len (p ++ concat ps) = len p + len (concat ps))
      by (unfold len; rewrite length_app; lia).
    pose proof (len_nonneg p) as Hp. pose proof (len_nonneg (concat ps)) as Hps.
    rewrite Read_within_block by lia.
    set (d1 := {| r := r d; offset := offset d; blocks := blocks d;
                  curBlock := curBlock d; curData := curData d;
                  curReadOffset := curReadOffset d + len p |}).
    destruct (IH d1) as (d' & Hrun & Hcur & Hoff); cbn [d1 curReadOffset curData]; try lia.
    exists d'. rewrite Hrun. cbn [d1 curReadOffset curData] in *.
    split; [| split; [assumption | lia]].
    do 2 f_equal.
    unfold len. rewrite Nat2Z.id, length_app.
    rewrite take_take, Nat.min_id.
    rewrite Z2Nat.inj_add by lia. rewrite Nat2Z.id.
    rewrite <- drop_drop, <- take_take_drop. reflexivity.
Qed.

End FastPath.

(** ** Concrete readers *)

Section Scenarios.

Local Ltac never_returns :=
  intros; apply Read_to_block_end_never_returns; vm_compute; intuition congruence.

Lemma sparseReader_built : NewDataReader (noImage 4) 96 [1] = Ret (inr sparseReader).
Proof. reflexivity. Qed.

Lemma rawReader_built :
  readCurBlock rawStart = Ret {| st := rawReader; err := None; io := [(0, 4)] |}.
Proof. reflexivity. Qed.

(** C2.  Reading the whole content of a one-block reader: with the
    4-byte sparse block that [NewDataReader] builds and with a 4-byte raw
    block, a [Read] of 4 bytes never returns, and neither does the second
    call when the 4 bytes are asked for in two calls of 2. *)
Theorem Read_whole_block_never_returns :
  (forall fuel, returns (Read fuel sparseReader [xff; xff; xff; xff]) = false)
  /\ (forall fuel, returns (Read fuel rawReader [xff; xff; xff; xff]) = false)
  /\ exists d1,
      (forall fuel, Read fuel rawReader [xff; xff] = Returned d1 [x0a; x14] 2 None)
      /\ forall fuel, returns (Read fuel d1 [xff; xff]) = false.
Proof.
  split; [never_returns | split; [never_returns |]].
  eexists. split; [reflexivity | never_returns].
Qed.

(** After a successful move to the next block the cursor keeps its old
    value and the copy starts one byte in: the call returns the second
    and third byte of the new block and leaves the cursor at 0. *)
Lemma Read_after_advance_skips_first_byte :
  exists d',
    Read 1 emptyCache [xff; xff] = Returned d' [x14; x1e] 2 None
    /\ curData d' = [x0a; x14; x1e; x28]
    /\ curReadOffset d' = 0.
Proof. eexists. split; [reflexivity | split; reflexivity]. Qed.

(** With an empty cached block that is the last one, [Read] does report
    the end of the block list, with no byte copied. *)
Lemma Read_empty_last_block_reports_end :
  exists d,
    NewDataReader (noImage 0) 96 [1] = Ret (inr d)
    /\ curData d = []
    /\ Read 1 d [xff; xff] = Returned d [xff; xff] 0 (Some ErrRanOutOfBlocks).
Proof. eexists. split; [reflexivity | split; reflexivity]. Qed.

(** C3.  A request for 6 bytes from a reader whose only block holds 4:
    the block list is exhausted before the buffer is full, and the call
    does not return. *)
Theorem Read_past_last_block_never_returns :
  (forall fuel, returns (Read fuel sparseReader (replicate 6 xff)) = false)
  /\ blocks sparseReader = [ {| begOffset := 96; size := 0; compressed := false;
                                uncompressedSize := 4 |} ]
  /\ len (curData sparseReader) = 4.
Proof.
  split; [never_returns | split; reflexivity].
Qed.

End Scenarios.

(** ** Recovery after a failed advance *)

Section Recovery.


(** A [Read] that finds the cache empty and whose advance fails returns
    that error with no byte copied, and leaves the reader in the state
    the failed advance produced. *)
Lemma Read_failed_advance
    (d : DataReader) (s : step) (e : error) (p : list byte) :
  curData d = [] ->
  curReadOffset d = 0 ->
  0 < len p -> len p < 2 ^ 63 ->
  readNextBlock d = Ret s ->
  err s = Some e ->
  forall fuel, Read (S fuel) d p = Returned (st s) p 0 (Some e).
Proof.
  intros Hcur Ho Hp0 Hp Hnext Herr fuel.
  unfold Read. rewrite Ho, Hcur.
  change (len (@nil byte)) with 0.
  rewrite Z.add_0_l, int_id by lia.
  destruct (Z.ltb_spec (len p) 0); [lia |].
  cbn [outerLoop].
  destruct (Z.ltb_spec 0 (len p)); [| lia].
  unfold refill. rewrite Ho, Hcur.
  change (len (@nil byte)) with 0. cbn [Z.eqb].
  now rewrite Hnext, Herr.
Qed.

(** C4.  The reader [NewDataReader] builds over the packed sizes 2 and 4
    on [flakyImage]: block 0 decodes to no bytes (empty cache, image
    offset 2^25) and block 1 does not decode.  The [Read] that has to
    move on returns the codec's error with 0 bytes and the block index
    back at 0; but block 0 has been decoded again from the section at
    image offset 2^25, so the cache holds 01 02 03 instead of nothing,
    block 0's recorded start is 2^25 and the image offset is 2^26; the
    next [Read] returns the byte 01 with a nil error. *)
Theorem Read_failed_advance_recaches_other_bytes :
  exists d,
    NewDataReader flakyImage 0 [2; 4] = Ret (inr d)
    /\ curBlock d = 0
    /\ curData d = []
    /\ offset d = 2 ^ 25
    /\ begOffset <$> blocks d = [0; 0]
    /\ exists d1,
        (forall fuel, Read (S fuel) d [xff] = Returned d1 [xff] 0 (Some (ErrExternal 7)))
        /\ curBlock d1 = 0
        /\ curData d1 = [x01; x02; x03]
        /\ offset d1 = 2 ^ 26
        /\ begOffset <$> blocks d1 = [2 ^ 25; 0]
        /\ exists d2,
            (forall fuel, Read fuel d1 [xff] = Returned d2 [x01] 1 None)
            /\ curBlock d2 = 0.
Proof.
  eexists. split; [vm_compute; reflexivity |].
  do 4 (split; [reflexivity |]).
  eexists. split.
  - apply Read_failed_advance; try reflexivity; vm_compute; reflexivity.
  - do 4 (split; [reflexivity |]).
    eexists. split; [intros fuel; reflexivity | reflexivity].
Qed.

End Recovery.

(** * Properties of the File node *)

Import ReaderFile.

Section FileNode.

Context {IOReader FullReader Writer fileInfo : Type}.
Variable rdr_Read : IOReader -> list byte -> IOReader * list byte * Z * option error.
Variable full_ReadAt : FullReader -> list byte -> Z -> list byte * Z * option error.
Variable full_WriteTo : FullReader -> Writer -> Writer * Z * option error.

Local Abbreviation File := (@ReaderFile.File IOReader FullReader fileInfo).

Lemma notFile_IsRegular (f : File) : notFile f = negb (IsRegular f).
Proof.
  unfold notFile, IsRegular.
  rewrite negb_orb.
  do 2 (rewrite bool_decide_not). reflexivity.
Qed.

(** C7.  On a node whose inode is not a regular file, [Read], [ReadAt]
    and [WriteTo] each return 0 bytes and [ErrReadNotFile]; buffer,
    sink and node are left as they were. *)
Theorem non_regular_reads_fail (f : File) (p : list byte) (off : Z) (w : Writer) :
  IsRegular f = false ->
  ReaderFile.Read rdr_Read f p = (f, p, 0, Some ErrReadNotFile)
  /\ ReadAt full_ReadAt f p off = Ret (p, 0, Some ErrReadNotFile)
  /\ WriteTo full_WriteTo f w = Ret (w, 0, Some ErrReadNotFile).
Proof.
  intros Hreg. unfold ReaderFile.Read, ReadAt, WriteTo.
  rewrite notFile_IsRegular, Hreg. cbn. auto.
Qed.

(** C9.  [Close] returns nil, and a [Read] on the closed node, when it
    is a regular file, returns 0 bytes and [fs.ErrClosed] without
    touching the buffer. *)
Theorem Read_after_Close (f : File) (p : list byte) :
  snd (Close f) = None
  /\ (IsRegular f = true ->
      ReaderFile.Read rdr_Read (fst (Close f)) p
      = (fst (Close f), p, 0, Some fs_ErrClosed)).
Proof.
  split; [reflexivity |].
  intros Hreg. unfold ReaderFile.Read, Close. cbn [fst].
  rewrite notFile_IsRegular.
  unfold IsRegular in *. cbn [setRdr i rdr] in *.
  rewrite Hreg. reflexivity.
Qed.

(** C8.  For a device node with packed device field [dev] the major
    number is [dev >> 8] and the minor number is [dev & 0xFF]. *)
Theorem deviceDevices_major_minor (f : File) (dev : Z) :
  deviceField f dev ->
  deviceDevices f = Ret (Z.shiftr dev 8, Z.land dev 255).
Proof.
  unfold deviceField, deviceDevices.
  intros [[[Ht | Ht] Hd] | [[Ht | Ht] Hd]]; rewrite Ht, Hd; reflexivity.
Qed.

(** The two numbers as quotient and remainder by 256. *)
Lemma major_minor_divmod (dev : Z) :
  0 <= dev < 2 ^ 32 ->
  Z.shiftr dev 8 = dev / 256
  /\ Z.land dev 255 = dev mod 256
  /\ dev = 256 * Z.shiftr dev 8 + Z.land dev 255
  /\ 0 <= Z.shiftr dev 8 < 2 ^ 24.
Proof.
  intros Hd.
  assert (H1 : Z.shiftr dev 8 = dev / 256) by (now rewrite Z.shiftr_div_pow2 by lia).
  assert (H2 : Z.land dev 255 = dev mod 256).
  { change 255 with (Z.ones 8). now rewrite Z.land_ones by lia. }
  rewrite H1, H2.
  pose proof (Z.div_mod dev 256 ltac:(lia)).
  repeat split; try lia.
  - apply Z.div_pos; lia.
  - apply Z.div_lt_upper_bound; lia.
Qed.

Lemma ReadDir_not_directory (f : File) (n : Z) :
  IsDir f = false -> ReadDir f n = Ret (f, [], Some ErrNotDirectory).
Proof. intros Hd. unfold ReadDir. now rewrite Hd. Qed.

End FileNode.

(** ** The File properties on concrete nodes *)

Section FileExamples.

Lemma non_regular_reads_fail_witness :
  ReaderFile.Read idleRead dirD [xff; xff] = (dirD, [xff; xff], 0, Some ErrReadNotFile)
  /\ ReadAt idleReadAt dirD [xff; xff] 3 = Ret ([xff; xff], 0, Some ErrReadNotFile)
  /\ WriteTo idleWriteTo dirD tt = Ret (tt, 0, Some ErrReadNotFile).
Proof.
  apply (non_regular_reads_fail idleRead idleReadAt idleWriteTo dirD [xff; xff] 3 tt).
  reflexivity.
Defined.

Lemma Read_after_Close_witness :
  IsRegular fileA = true
  /\ snd (Close fileA) = None
  /\ ReaderFile.Read idleRead (fst (Close fileA)) [xff; xff]
     = (fst (Close fileA), [xff; xff], 0, Some fs_ErrClosed).
Proof.
  split; [reflexivity |].
  destruct (Read_after_Close idleRead fileA [xff; xff]) as [Hnil Hread].
  split; [exact Hnil |].
  apply Hread. reflexivity.
Defined.

Lemma deviceDevices_major_minor_witness :
  deviceDevices devSda1 = Ret (8, 1).
Proof.
  apply (deviceDevices_major_minor devSda1 2049).
  left. split; [right; reflexivity | reflexivity].
Defined.

(** C6.  The directory "d" holds three entries while the reader's own
    entry list holds one.  [ReadDir 2] returns only "a"; the next
    [ReadDir 2] returns nothing and [io.EOF], with "b" and "c" never
    returned and the cursor at 1. *)
Theorem ReadDir_ends_at_reader_entry_count :
  readDirectory (ReaderFile.r dirD) (i dirD) = inr [entry x61; entry x62; entry x63]
  /\ ReadDir dirD 2
     = Ret (addDirsRead dirD 1, [FileInfoToDirEntry (entry x61)], None)
  /\ ReadDir (addDirsRead dirD 1) 2
     = Ret (addDirsRead (addDirsRead dirD 1) 0, [], Some io_EOF)
  /\ dirsRead (addDirsRead (addDirsRead dirD 1) 0) = 1.
Proof. repeat split. Qed.

End FileExamples.

(** ** Listing a whole directory *)

Section ReadDirAll.

Context {IOReader FullReader fileInfo : Type}.

Local Abbreviation File := (@ReaderFile.File IOReader FullReader fileInfo).

Lemma collect_all (rd : ReaderFile.Reader) (es : list Entry) (fis : list fileInfo) :
  forall (out : list DirEntry) (er : option error),
    Forall2 (fun en fi => newFileInfo rd en = inr fi) es fis ->
    collect rd es out er
    = (out ++ map FileInfoToDirEntry fis, match es with [] => er | _ => None end).
Proof.
  intros out er H. revert out er.
  induction H as [| en fi es fis Hen _ IH]; intros out er; cbn [collect map].
  - now rewrite app_nil_r.
  - rewrite Hen, IH, <- app_assoc. cbn [app].
    destruct es; reflexivity.
Qed.

Lemma slice_whole {A} (l : list A) : slice l 0 (len l) = Some l.
Proof.
  unfold slice, len.
  destruct (Z.leb_spec 0 (Z.of_nat (length l))); [| lia].
  rewrite !Z.leb_refl. cbn [andb].
  rewrite Z.sub_0_r, Nat2Z.id. change (Z.to_nat 0) with 0%nat.
  rewrite drop_0. now rewrite firstn_all.
Qed.

(** X14.  With [n <= 0] a directory node returns every entry, whatever its
    cursor, and moves the cursor on by their number. *)
Lemma ReadDir_all_entries (f : File) (n : Z) (ents : list Entry) (fis : list fileInfo) :
  IsDir f = true ->
  n <= 0 ->
  readDirectory (ReaderFile.r f) (i f) = inr ents ->
  Forall2 (fun en fi => newFileInfo (ReaderFile.r f) en = inr fi) ents fis ->
  ReadDir f n = Ret (addDirsRead f (len ents), map FileInfoToDirEntry fis, None).
Proof.
  intros Hd Hn He Hfi. unfold ReadDir.
  rewrite Hd, He. cbn [negb].
  destruct (Z.ltb_spec 0 n); [lia |].
  rewrite slice_whole, (collect_all _ _ _ _ _ Hfi). cbn [app].
  assert (Hlen : len (map FileInfoToDirEntry fis) = len ents).
  { unfold len. rewrite length_map. now rewrite (Forall2_length _ _ _ Hfi). }
  rewrite Hlen. now destruct ents.
Qed.

End ReadDirAll.

(** * Further properties of the data reader *)

Import Data.

(** ** What a [Read] call hands back *)

Section ReadResults.

(** X1.  A request that ends strictly before the end of the cached block
    returns at once, whatever the fuel: the count is [len(p)], the error
    nil, the buffer holds the next [len(p)] bytes of the cache, the cursor
    has moved past them, and block list, block index, image offset and
    cache are as before. *)
Theorem Read_inside_block_returns_next_bytes
    (fuel : nat) (d : DataReader) (p : list byte) :
  0 <= curReadOffset d ->
  curReadOffset d + len p < len (curData d) ->
  len (curData d) < 2 ^ 63 ->
  exists d',
    Read fuel d p
    = Returned d' (take (length p) (drop (Z.to_nat (curReadOffset d)) (curData d)))
               (len p) None
    /\ curReadOffset d' = curReadOffset d + len p
    /\ curData d' = curData d
    /\ blocks d' = blocks d
    /\ curBlock d' = curBlock d
    /\ offset d' = offset d.
Proof.
  intros Ho Hfit Hn. eexists.
  split; [now apply Read_within_block |].
  cbn. repeat split.
Qed.

Lemma Read_inside_block_returns_next_bytes_witness :
  exists d',
    Read 0 rawReader [xff; xff] = Returned d' [x0a; x14] 2 None
    /\ curReadOffset d' = 2
    /\ curData d' = [x0a; x14; x1e; x28]
    /\ blocks d' = rawThenPacked
    /\ curBlock d' = 0
    /\ offset d' = 4.
Proof.
  apply (Read_inside_block_returns_next_bytes 0 rawReader [xff; xff]);
    vm_compute; intuition congruence.
Defined.

(** The 3 bytes before the last one of the cached block, asked for as
    1 + 2 bytes. *)
Lemma readChunks_within_block_witness :
  exists d',
    readChunks 0 rawReader [[xff]; [xff; xff]] = Some (d', [x0a; x14; x1e])
    /\ curData d' = [x0a; x14; x1e; x28]
    /\ curReadOffset d' = 3.
Proof.
  apply (readChunks_within_block 0 [[xff]; [xff; xff]] rawReader);
    vm_compute; intuition congruence.
Defined.

Lemma copyLoop_length (d : DataReader) (todo : nat) :
  forall (k : Z) (p p' : list byte),
    copyLoop d todo k p = Ret p' -> len p' = len p.
Proof.
  induction todo as [| todo IH]; intros k p p'; cbn [copyLoop].
  - now intros [= <-].
  - destruct (index _ _) as [b |]; [| discriminate].
    destruct (store p k b) as [p1 |] eqn:Hs; [| discriminate].
    intros H. apply IH in H. apply len_store in Hs. lia.
Qed.

Lemma innerLoop_count (d : DataReader) (todo : nat) :
  forall (read curRead : Z) (p : list byte) (read' curRead' : Z) (p' : list byte),
    0 <= read ->
    read + Z.of_nat todo <= len p ->
    len p < 2 ^ 63 ->
    innerLoop d todo read curRead p = Ret (read', curRead', p') ->
    read <= read' <= read + Z.of_nat todo /\ len p' = len p.
Proof.
  induction todo as [| todo IH]; intros read curRead p read' curRead' p' Hr Hsum Hp;
    cbn [innerLoop].
  - intros [= <- _ <-]. lia.
  - destruct (_ <? _).
    + destruct (index _ _) as [b |]; [| discriminate].
      destruct (store p read b) as [p1 |] eqn:Hs; [| discriminate].
      apply len_store in Hs.
      rewrite (int_id (read + 1)) by lia.
      intros H. apply IH in H; lia.
    + intros [= <- _ <-]. lia.
Qed.

Lemma outerLoop_count (fuel : nat) :
  forall (d : DataReader) (read curRead : Z) (p : list byte)
         (d' : DataReader) (p' : list byte) (n : Z) (e : option error),
    0 <= read <= len p ->
    len p < 2 ^ 63 ->
    outerLoop fuel d read curRead p = Returned d' p' n e ->
    0 <= n <= len p /\ len p' = len p /\ (e = None -> n = len p).
Proof.
  induction fuel as [| fuel IH]; intros d read curRead p d' p' n e Hr Hp; cbn [outerLoop].
  - destruct (Z.ltb_spec read (len p)); [discriminate |].
    destruct (Z.eqb_spec read (len p)); cbn [negb]; intros [= <- <- <- <-];
      repeat split; try lia; discriminate.
  - destruct (Z.ltb_spec read (len p)).
    + destruct (refill d curRead) as [[[d1 c1] [e1 |]] |]; try discriminate.
      * intros [= <- <- <- <-]. repeat split; try lia; discriminate.
      * destruct (innerLoop _ _ _ _ _) as [[[r2 c2] p2] |] eqn:Hin; [| discriminate].
        apply innerLoop_count in Hin; [| lia | lia | lia].
        destruct Hin as [Hr2 Hl2].
        intros Hrun. apply IH in Hrun; [| lia | lia]. rewrite Hl2 in Hrun. exact Hrun.
    + destruct (Z.eqb_spec read (len p)); cbn [negb]; intros [= <- <- <- <-];
        repeat split; try lia; discriminate.
Qed.

(** X5.  A [Read] that returns never reports more bytes than were asked
    for, hands the buffer back at its length, and returns a nil error
    only together with the full count [len(p)]. *)
Theorem Read_count_within_request
    (fuel : nat) (d d' : DataReader) (p p' : list byte) (n : Z) (e : option error) :
  len p < 2 ^ 63 ->
  Read fuel d p = Returned d' p' n e ->
  0 <= n <= len p /\ len p' = len p /\ (e = None -> n = len p).
Proof.
  intros Hp. unfold Read.
  pose proof (len_nonneg p) as Hp0.
  destruct (_ <? _).
  - destruct (copyLoop _ _ _ _) as [p1 |] eqn:Hc; [| discriminate].
    apply copyLoop_length in Hc.
    intros [= <- <- <- <-]. repeat split; lia.
  - apply outerLoop_count; lia.
Qed.

(** The block list runs out under an empty cache: 0 of 2 bytes. *)
Lemma Read_count_within_request_witness :
  Read 1 emptyLast [xff; xff] = Returned emptyLast [xff; xff] 0 (Some ErrRanOutOfBlocks)
  /\ 0 <= 0 <= len [xff; xff]
  /\ len [xff; xff] = len [xff; xff]
  /\ (Some ErrRanOutOfBlocks = None -> 0 = len [xff; xff]).
Proof.
  split; [reflexivity |].
  apply (Read_count_within_request 1 emptyLast emptyLast [xff; xff] [xff; xff] 0
           (Some ErrRanOutOfBlocks)).
  - vm_compute. reflexivity.
  - reflexivity.
Defined.

(** X4.  A [Read] into an empty buffer returns 0 and nil without fuel,
    and leaves the reader exactly as it was, wherever the cursor stands. *)
Theorem Read_empty_buffer (fuel : nat) (d : DataReader) :
  - 2 ^ 63 <= curReadOffset d < 2 ^ 63 ->
  Read fuel d [] = Returned d [] 0 None.
Proof.
  intros Ho. unfold Read.
  change (len (@nil byte)) with 0.
  rewrite Z.add_0_r, int_id by lia.
  destruct (_ <? _).
  - cbn [copyLoop length]. destruct d; reflexivity.
  - destruct fuel; reflexivity.
Qed.

Lemma Read_empty_buffer_witness :
  Read 0 rawReader [] = Returned rawReader [] 0 None.
Proof. apply (Read_empty_buffer 0 rawReader). vm_compute. intuition congruence. Defined.

End ReadResults.

(** ** The slow path, in general *)

Section SlowPathInGeneral.

(** Below the wrap-around every iteration of the stuck loop leaves
    reader, count and buffer as they are. *)
Lemma outerLoop_spins (fuel : nat) :
  forall (d : DataReader) (read curRead : Z) (p : list byte),
    read < len p ->
    curReadOffset d <> len (curData d) ->
    len (curData d) - 1 <= int (curReadOffset d + curRead) ->
    int (curReadOffset d + curRead) + Z.of_nat fuel < 2 ^ 63 ->
    outerLoop fuel d read curRead p = OutOfFuel d p.
Proof.
  induction fuel as [| fuel IH]; intros d read curRead p Hread Ho Hs Hroom; cbn [outerLoop].
  - destruct (Z.ltb_spec read (len p)); [reflexivity | lia].
  - destruct (Z.ltb_spec read (len p)); [| lia].
    unfold refill.
    destruct (Z.eqb_spec (curReadOffset d) (len (curData d))); [contradiction |].
    destruct (Z.to_nat (len p - read)) as [| todo] eqn:Htodo; [lia |].
    cbn [innerLoop].
    rewrite int_succ_cursor.
    pose proof (int_range (curReadOffset d + curRead)) as Hr.
    rewrite (int_id (int (curReadOffset d + curRead) + 1)) by lia.
    destruct (Z.ltb_spec (int (curReadOffset d + curRead) + 1) (len (curData d))); [lia |].
    apply IH; auto.
    + rewrite int_succ_cursor, int_id; lia.
    + rewrite int_succ_cursor, int_id; lia.
Qed.

Lemma innerLoop_stops_at_end (d : DataReader) (todo : nat) :
  forall (read curRead : Z) (p : list byte),
    0 <= curReadOffset d -> 0 <= curRead -> 0 <= read ->
    curReadOffset d + curRead < len (curData d) ->
    len (curData d) < 2 ^ 62 -> len p < 2 ^ 62 ->
    read + Z.of_nat todo = len p ->
    len (curData d) - 1 - (curReadOffset d + curRead) < Z.of_nat todo ->
    exists read' curRead' p',
      innerLoop d todo read curRead p = Ret (read', curRead', p')
      /\ read' < len p'
      /\ len p' = len p
      /\ int (curReadOffset d + curRead') = len (curData d).
Proof.
  induction todo as [| todo IH]; intros read curRead p Ho Hc Hrd Hlt Hn Hp Hsum Hmore.
  - lia.
  - cbn [innerLoop].
    rewrite (int_id (curRead + 1)) by lia.
    rewrite (int_id (curReadOffset d + (curRead + 1))) by lia.
    destruct (Z.ltb_spec (curReadOffset d + (curRead + 1)) (len (curData d))) as [Hin | Hout].
    + destruct (index_in_range (curData d) (curReadOffset d + (curRead + 1)) ltac:(lia))
        as [b ->].
      destruct (store_in_range p read b ltac:(lia)) as [p1 Hp1].
      rewrite Hp1. apply len_store in Hp1.
      rewrite (int_id (read + 1)) by lia.
      destruct (IH (read + 1) (curRead + 1) p1) as (r' & c' & p' & Hrun & Hlt' & Hlen' & Hend);
        try lia.
      exists r', c', p'. repeat split; try assumption; lia.
    + exists read, (curRead + 1), p. split; [reflexivity |].
      repeat split; try lia.
      rewrite int_id; lia.
Qed.

(** X3.  A request that reaches or passes the end of a non-empty cached
    block does not return: after any number of iterations below 2^62 the
    call is still in its outer loop, with the reader exactly as it was
    (no next block fetched, cursor not moved) and the buffer at its
    length; and with no amount of fuel does it return. *)
Theorem Read_reaching_block_end_keeps_looping (d : DataReader) (p : list byte) :
  0 <= curReadOffset d < len (curData d) ->
  len (curData d) <= curReadOffset d + len p ->
  len (curData d) < 2 ^ 62 -> len p < 2 ^ 62 ->
  (forall fuel, returns (Read fuel d p) = false)
  /\ forall fuel, Z.of_nat fuel < 2 ^ 62 ->
       exists p', Read fuel d p = OutOfFuel d p' /\ len p' = len p.
Proof.
  intros Ho Hreq Hn Hp. split.
  - intros fuel. now apply Read_to_block_end_never_returns.
  - intros fuel Hfuel. unfold Read.
    rewrite int_id by lia.
    destruct (Z.ltb_spec (curReadOffset d + len p) (len (curData d))); [lia |].
    destruct fuel as [| fuel]; cbn [outerLoop].
    + destruct (Z.ltb_spec 0 (len p)); [| lia]. now exists p.
    + destruct (Z.ltb_spec 0 (len p)); [| lia].
      unfold refill.
      destruct (Z.eqb_spec (curReadOffset d) (len (curData d))); [lia |].
      destruct (innerLoop_stops_at_end d (Z.to_nat (len p - 0)) 0 0 p)
        as (read' & curRead' & p' & -> & Hread' & Hlen' & Hs); try lia.
      exists p'. split; [| assumption].
      apply outerLoop_spins; lia.
Qed.

Lemma Read_reaching_block_end_keeps_looping_witness :
  (forall fuel, returns (Read fuel rawReader [xff; xff; xff; xff; xff]) = false)
  /\ forall fuel, Z.of_nat fuel < 2 ^ 62 ->
       exists p', Read fuel rawReader [xff; xff; xff; xff; xff] = OutOfFuel rawReader p'
                  /\ len p' = len [xff; xff; xff; xff; xff].
Proof.
  apply (Read_reaching_block_end_keeps_looping rawReader [xff; xff; xff; xff; xff]);
    vm_compute; intuition congruence.
Defined.

End SlowPathInGeneral.

(** ** A read that moves on to the next block *)

Section AfterAdvance.

Lemma readNextBlock_cursor (d : DataReader) (s : step) :
  readNextBlock d = Ret s -> curReadOffset (st s) = curReadOffset d.
Proof.
  unfold readNextBlock.
  destruct (_ <=? _); [now intros [= <-] |].
  destruct (readCurBlock _) as [s1 |] eqn:H1; [| discriminate].
  apply readCurBlock_frame in H1 as (_ & _ & Hc1 & _).
  cbn [setCurBlock curReadOffset] in Hc1.
  destruct (err s1).
  - destruct (readCurBlock _) as [s2 |] eqn:H2; [| discriminate].
    apply readCurBlock_frame in H2 as (_ & _ & Hc2 & _).
    cbn [setCurBlock curReadOffset] in Hc2.
    intros [= <-]. cbn [st]. congruence.
  - intros [= <-]. exact Hc1.
Qed.

(** The inner loop with enough cached bytes ahead: entry [read + j] of
    the buffer receives the cached byte at cursor + counter + 1 + j. *)
Lemma innerLoop_copies (d : DataReader) :
  forall (rest done : list byte) (read curRead : Z),
    read = len done ->
    0 <= curReadOffset d -> 0 <= curRead ->
    curReadOffset d + curRead + len rest < len (curData d) ->
    len (curData d) < 2 ^ 62 ->
    len (done ++ rest) < 2 ^ 62 ->
    innerLoop d (length rest) read curRead (done ++ rest)
    = Ret (read + len rest, curRead + len rest,
           done ++ take (length rest)
                     (drop (Z.to_nat (curReadOffset d + curRead + 1)) (curData d))).
Proof.
  induction rest as [| x rest IH]; intros done read curRead Hread Ho Hc Hfit Hn Hp.
  - cbn [innerLoop length take]. unfold len. cbn [length].
    now rewrite !Z.add_0_r.
  - cbn [innerLoop length].
    assert (Hrest : len (x :: rest) = len rest + 1) by (unfold len; cbn [length]; lia).
    assert (Hall : len (done ++ x :: rest) = read + len rest + 1).
    { unfold len in *. rewrite length_app. cbn [length]. lia. }
    pose proof (len_nonneg rest) as Hr0. pose proof (len_nonneg done) as Hd0.
    rewrite (int_id (curRead + 1)) by lia.
    rewrite (int_id (curReadOffset d + (curRead + 1))) by lia.
    destruct (Z.ltb_spec (curReadOffset d + (curRead + 1)) (len (curData d))); [| lia].
    destruct (index_in_range (curData d) (curReadOffset d + (curRead + 1)) ltac:(lia))
      as [b Hb].
    rewrite Hb.
    unfold index in Hb. destruct (Z.leb_spec 0 (curReadOffset d + (curRead + 1))); [| lia].
    unfold store.
    destruct (Z.leb_spec 0 read); [| lia].
    destruct (Z.ltb_spec read (len (done ++ x :: rest))); [| lia].
    cbn [andb].
    replace (Z.to_nat read) with (length done + 0)%nat by (unfold len in Hread; lia).
    rewrite insert_app_r. cbn [insert list_insert].
    rewrite (int_id (read + 1)) by lia.
    rewrite (cons_middle b done rest), app_assoc.
    rewrite IH; try lia.
    + rewrite <- app_assoc. f_equal.
      f_equal; [f_equal; lia |].
      f_equal.
      replace (Z.to_nat (curReadOffset d + curRead + 1))
        with (Z.to_nat (curReadOffset d + (curRead + 1))) by lia.
      rewrite (drop_S _ _ _ Hb). cbn [app take].
      do 3 f_equal. lia.
    + unfold len in *. rewrite length_app. cbn [length]. lia.
    + rewrite <- app_assoc. cbn [app].
      unfold len in *. rewrite length_app in *. cbn [length] in *. lia.
Qed.

(** X6.  With an empty cache and the cursor at 0, a request shorter than
    the next block makes [Read] fetch that block and return nil with the
    full count, but the bytes delivered are those from the block's second
    byte on, and the cursor is still 0 afterwards. *)
Theorem Read_after_advance_starts_one_byte_in
    (d : DataReader) (s : step) (p : list byte) :
  curData d = [] ->
  curReadOffset d = 0 ->
  readNextBlock d = Ret s ->
  err s = None ->
  0 < len p < len (curData (st s)) ->
  len (curData (st s)) < 2 ^ 62 ->
  curReadOffset (st s) = 0
  /\ forall fuel,
       Read (S fuel) d p
       = Returned (st s) (take (length p) (drop 1 (curData (st s)))) (len p) None.
Proof.
  intros Hcur Ho Hnext Herr Hp Hn.
  pose proof (readNextBlock_cursor _ _ Hnext) as Hcs. rewrite Ho in Hcs.
  split; [exact Hcs |].
  intros fuel. unfold Read. rewrite Ho, Hcur.
  change (len (@nil byte)) with 0.
  rewrite Z.add_0_l, int_id by lia.
  destruct (Z.ltb_spec (len p) 0); [lia |].
  cbn [outerLoop].
  destruct (Z.ltb_spec 0 (len p)); [| lia].
  unfold refill. rewrite Ho, Hcur.
  change (len (@nil byte)) with 0. cbn [Z.eqb].
  rewrite Hnext, Herr.
  replace (Z.to_nat (len p - 0)) with (length p) by (unfold len; lia).
  pose proof (innerLoop_copies (st s) p [] 0 0 eq_refl) as Hin.
  cbn [app] in Hin. rewrite Hin by lia. clear Hin.
  rewrite Hcs. change (Z.to_nat (0 + 0 + 1)) with 1%nat. rewrite !Z.add_0_l.
  assert (Hlen : len (take (length p) (drop 1 (curData (st s)))) = len p).
  { unfold len in *. rewrite length_take, length_drop. lia. }
  destruct fuel; cbn [outerLoop]; rewrite Hlen;
    (destruct (Z.ltb_spec (len p) (len p)); [lia |]);
    rewrite Z.eqb_refl; reflexivity.
Qed.

Lemma Read_after_advance_starts_one_byte_in_witness :
  exists s,
    readNextBlock emptyCache = Ret s
    /\ curData (st s) = [x0a; x14; x1e; x28]
    /\ take (length [xff; xff]) (drop 1 (curData (st s))) = [x14; x1e]
    /\ curReadOffset (st s) = 0
    /\ forall fuel,
         Read (S fuel) emptyCache [xff; xff]
         = Returned (st s) (take (length [xff; xff]) (drop 1 (curData (st s))))
                    (len [xff; xff]) None.
Proof.
  eexists. split; [reflexivity |]. split; [reflexivity |]. split; [reflexivity |].
  apply (Read_after_advance_starts_one_byte_in emptyCache _ [xff; xff]);
    try reflexivity; vm_compute; intuition congruence.
Defined.

End AfterAdvance.

(** ** Materialization, step by step *)

Section Steps.

Lemma index_lookup {A} (l : list A) (k : Z) (x : A) :
  index l k = Some x -> l !! Z.to_nat k = Some x.
Proof. unfold index. now destruct (0 <=? k). Qed.

(** X7.  A materialization that fails leaves the reader exactly as it
    was, and a materialization asks the image for at most one section,
    the one that starts at the image offset and has the current block's
    on-disk size. *)
Theorem readCurBlock_failure_leaves_reader (d : DataReader) (s : step) :
  readCurBlock d = Ret s ->
  (err s <> None -> st s = d)
  /\ (io s = []
      \/ exists b, index (blocks d) (curBlock d) = Some b
                   /\ io s = [(offset d, size b)]).
Proof.
  unfold readCurBlock.
  destruct (_ <=? _).
  - intros [= <-]. cbn. auto.
  - destruct (index (blocks d) (curBlock d)) as [b |] eqn:Hb; [| discriminate].
    destruct (size b =? 0).
    + intros [= <-]. cbn. split; [congruence | auto].
    + destruct (compressed b).
      * destruct (Decompress _ _ _); intros [= <-]; cbn;
          (split; [congruence | right; eauto]).
      * destruct (copySection _ _ _); intros [= <-]; cbn;
          (split; [congruence | right; eauto]).
Qed.

(** Block 1 of [image8] does not decode. *)
Lemma readCurBlock_failure_leaves_reader_witness :
  exists s,
    readCurBlock (setCurBlock rawReader 1) = Ret s
    /\ err s = Some (ErrExternal 7)
    /\ st s = setCurBlock rawReader 1
    /\ io s = [(4, 4)].
Proof.
  eexists. split; [reflexivity |]. split; [reflexivity |].
  destruct (readCurBlock_failure_leaves_reader (setCurBlock rawReader 1) _ eq_refl)
    as [Hsame _].
  split; [apply Hsame; discriminate | reflexivity].
Defined.

Lemma fmap_setBlock {B} (f : DataBlock -> B) (d : DataReader) (b b' : DataBlock) :
  index (blocks d) (curBlock d) = Some b ->
  f b' = f b ->
  f <$> setBlock d b' = f <$> blocks d.
Proof.
  intros Hb Hf. apply index_lookup in Hb. unfold setBlock.
  rewrite list_fmap_insert, Hf.
  apply list_insert_id. now rewrite list_lookup_fmap, Hb.
Qed.

Lemma readCurBlock_sizes (d : DataReader) (s : step) :
  readCurBlock d = Ret s ->
  size <$> blocks (st s) = size <$> blocks d
  /\ compressed <$> blocks (st s) = compressed <$> blocks d.
Proof.
  unfold readCurBlock.
  destruct (_ <=? _); [now intros [= <-] |].
  destruct (index (blocks d) (curBlock d)) as [b |] eqn:Hb; [| discriminate].
  destruct (size b =? 0).
  - intros [= <-]. cbn [st blocks].
    split; now apply (fmap_setBlock _ d b).
  - destruct (compressed b) eqn:Hc.
    + destruct (Decompress _ _ _); intros [= <-]; cbn [st blocks]; [auto |].
      split; apply (fmap_setBlock _ d b); auto.
    + destruct (copySection _ _ _); intros [= <-]; cbn [st blocks]; [auto |].
      split; apply (fmap_setBlock _ d b); auto.
Qed.

Lemma readNextBlock_sizes (d : DataReader) (s : step) :
  readNextBlock d = Ret s ->
  size <$> blocks (st s) = size <$> blocks d
  /\ compressed <$> blocks (st s) = compressed <$> blocks d.
Proof.
  unfold readNextBlock.
  destruct (_ <=? _); [now intros [= <-] |].
  destruct (readCurBlock _) as [s1 |] eqn:H1; [| discriminate].
  apply readCurBlock_sizes in H1 as [Hs1 Hc1].
  cbn [setCurBlock blocks] in Hs1, Hc1.
  destruct (err s1).
  - destruct (readCurBlock _) as [s2 |] eqn:H2; [| discriminate].
    apply readCurBlock_sizes in H2 as [Hs2 Hc2].
    cbn [setCurBlock blocks] in Hs2, Hc2.
    intros [= <-]. cbn [st]. split; congruence.
  - intros [= <-]. auto.
Qed.

Lemma outerLoop_sizes (fuel : nat) :
  forall (d : DataReader) (read curRead : Z) (p : list byte) (d' : DataReader),
    lastState (outerLoop fuel d read curRead p) = Some d' ->
    size <$> blocks d' = size <$> blocks d
    /\ compressed <$> blocks d' = compressed <$> blocks d.
Proof.
  induction fuel as [| fuel IH]; intros d read curRead p d'; cbn [outerLoop].
  - destruct (read <? len p); [now intros [= <-] |].
    destruct (negb _); now intros [= <-].
  - destruct (read <? len p).
    + unfold refill.
      destruct (curReadOffset d =? len (curData d)).
      * destruct (readNextBlock d) as [s |] eqn:Hn; [| discriminate].
        apply readNextBlock_sizes in Hn as [Hs Hc].
        destruct (err s); [now intros [= <-] |].
        destruct (innerLoop _ _ _ _ _) as [[[read' cr'] p'] |]; [| discriminate].
        intros Hrun. apply IH in Hrun as [Hs' Hc']. split; congruence.
      * destruct (innerLoop _ _ _ _ _) as [[[read' cr'] p'] |]; [| discriminate].
        apply IH.
    + destruct (negb _); now intros [= <-].
Qed.

(** X8.  Whatever a [Read] call does, returning or still looping, the
    on-disk size and the compressed flag of every block stay what the
    decoding made them; only the lazily filled fields change. *)
Theorem Read_keeps_block_sizes (fuel : nat) (d d' : DataReader) (p : list byte) :
  lastState (Read fuel d p) = Some d' ->
  size <$> blocks d' = size <$> blocks d
  /\ compressed <$> blocks d' = compressed <$> blocks d.
Proof.
  unfold Read.
  destruct (_ <? _).
  - destruct (copyLoop _ _ _ _); [| discriminate]. now intros [= <-].
  - apply outerLoop_sizes.
Qed.

(** A read that fetches block 1 of [emptyCache]. *)
Lemma Read_keeps_block_sizes_witness :
  exists d',
    lastState (Read 1 emptyCache [xff; xff]) = Some d'
    /\ begOffset <$> blocks d' = [0; 0; 0]
    /\ curBlock d' = 1
    /\ size <$> blocks d' = size <$> blocks emptyCache
    /\ compressed <$> blocks d' = compressed <$> blocks emptyCache.
Proof.
  eexists. split; [reflexivity |]. split; [reflexivity |]. split; [reflexivity |].
  apply (Read_keeps_block_sizes 1 emptyCache _ [xff; xff]). reflexivity.
Defined.

Lemma readCurBlock_returns (d : DataReader) :
  0 <= curBlock d -> exists s, readCurBlock d = Ret s.
Proof.
  intros Hc. unfold readCurBlock.
  destruct (Z.leb_spec (len (blocks d)) (curBlock d)); [eauto |].
  destruct (index_in_range (blocks d) (curBlock d) ltac:(lia)) as [b ->].
  destruct (size b =? 0); [eauto |].
  destruct (compressed b).
  - destruct (Decompress _ _ _); eauto.
  - destruct (copySection _ _ _); eauto.
Qed.

(** X9.  With the block index inside the list, an advance never panics;
    it moves the index on by one exactly when it succeeds and leaves it
    where it was when it fails. *)
Theorem readNextBlock_moves_index_only_on_success (d : DataReader) :
  len (blocks d) < 2 ^ 63 ->
  blockIndexOK d ->
  exists s,
    readNextBlock d = Ret s
    /\ (err s = None -> curBlock (st s) = curBlock d + 1)
    /\ (err s <> None -> curBlock (st s) = curBlock d).
Proof.
  unfold blockIndexOK, readNextBlock. intros Hlen Hd.
  cbn [setCurBlock curBlock blocks].
  rewrite (int_id (curBlock d + 1)) by lia.
  destruct (Z.leb_spec (len (blocks d)) (curBlock d + 1)).
  - eexists. split; [reflexivity |]. cbn [st err setCurBlock curBlock].
    rewrite int_id by lia. split; [discriminate | lia].
  - destruct (readCurBlock_returns (setCurBlock d (curBlock d + 1))) as [s1 H1];
      [cbn; lia |].
    rewrite H1.
    apply readCurBlock_frame in H1 as (Hc1 & _ & _ & _).
    cbn [setCurBlock curBlock] in Hc1.
    destruct (err s1) as [e1 |] eqn:He1.
    + destruct (readCurBlock_returns (setCurBlock (st s1) (int (curBlock (st s1) - 1))))
        as [s2 H2].
      { cbn [setCurBlock curBlock]. rewrite Hc1, int_id; lia. }
      rewrite H2.
      apply readCurBlock_frame in H2 as (Hc2 & _ & _ & _).
      cbn [setCurBlock curBlock] in Hc2.
      eexists. split; [reflexivity |]. cbn [st err].
      split; [discriminate |].
      intros _. rewrite Hc2, Hc1, int_id; lia.
    + exists s1. split; [reflexivity |]. split; [intros _; exact Hc1 | congruence].
Qed.

Lemma readNextBlock_moves_index_only_on_success_witness :
  exists s,
    readNextBlock emptyCache = Ret s
    /\ (err s = None -> curBlock (st s) = curBlock emptyCache + 1)
    /\ (err s <> None -> curBlock (st s) = curBlock emptyCache).
Proof.
  apply (readNextBlock_moves_index_only_on_success emptyCache);
    vm_compute; intuition congruence.
Defined.

(** X10.  An advance from the last block reports that the blocks have
    run out, asks the image for nothing and leaves the reader exactly as
    it was. *)
Theorem readNextBlock_at_last_block (d : DataReader) :
  curBlock d + 1 = len (blocks d) ->
  len (blocks d) < 2 ^ 63 ->
  readNextBlock d = Ret {| st := d; err := Some ErrRanOutOfBlocks; io := [] |}.
Proof.
  intros Hlast Hlen. unfold readNextBlock.
  cbn [setCurBlock curBlock blocks].
  pose proof (len_nonneg (blocks d)).
  rewrite (int_id (curBlock d + 1)) by lia.
  destruct (Z.leb_spec (len (blocks d)) (curBlock d + 1)); [| lia].
  replace (curBlock d + 1 - 1) with (curBlock d) by lia.
  rewrite int_id by lia.
  destruct d; reflexivity.
Qed.

Lemma readNextBlock_at_last_block_witness :
  readNextBlock sparseReader
  = Ret {| st := sparseReader; err := Some ErrRanOutOfBlocks; io := [] |}.
Proof.
  apply (readNextBlock_at_last_block sparseReader); vm_compute; reflexivity.
Defined.

End Steps.

(** ** Construction and the layout of the blocks in the image *)

Section Layout.

(** X12.  Whatever the packed value, the decoded on-disk size is a
    multiple of 2^25 below 2^32, the block counts as compressed exactly
    when the packed value is even, the uncompressed size is preset to the
    on-disk size for an uncompressed block and to 0 for a compressed one,
    and the start offset is 0. *)
Theorem NewDataBlockSize_fields (raw : Z) :
  0 <= size (NewDataBlockSize raw) < 2 ^ 32
  /\ (2 ^ 25 | size (NewDataBlockSize raw))
  /\ compressed (NewDataBlockSize raw) = Z.even raw
  /\ uncompressedSize (NewDataBlockSize raw)
     = (if Z.even raw then 0 else size (NewDataBlockSize raw))
  /\ begOffset (NewDataBlockSize raw) = 0.
Proof.
  split; [| split; [| split; [| split]]].
  - unfold NewDataBlockSize, u32. cbn [size]. apply Z.mod_pos_bound. lia.
  - apply NewDataBlockSize_size_multiple.
  - apply NewDataBlockSize_compressed.
  - rewrite <- NewDataBlockSize_compressed. reflexivity.
  - reflexivity.
Qed.

(** A successful materialization records the image offset it started
    from as the current block's start. *)
Lemma readCurBlock_records_start (d : DataReader) (s : step) :
  readCurBlock d = Ret s ->
  err s = None ->
  exists b, blocks (st s) !! Z.to_nat (curBlock d) = Some b
            /\ begOffset b = offset d.
Proof.
  unfold readCurBlock.
  destruct (_ <=? _); [intros [= <-]; discriminate |].
  destruct (index (blocks d) (curBlock d)) as [b |] eqn:Hb; [| discriminate].
  apply index_lookup in Hb. apply lookup_lt_Some in Hb.
  assert (Hset : forall b', setBlock d b' !! Z.to_nat (curBlock d) = Some b').
  { intros b'. unfold setBlock. now apply list_lookup_insert_eq. }
  destruct (size b =? 0).
  - intros [= <-] _. cbn [st blocks]. eexists. split; [apply Hset | reflexivity].
  - destruct (compressed b).
    + destruct (Decompress _ _ _); intros [= <-]; [discriminate |].
      intros _. cbn [st blocks]. eexists. split; [apply Hset | reflexivity].
    + destruct (copySection _ _ _); intros [= <-]; [discriminate |].
      intros _. cbn [st blocks]. eexists. split; [apply Hset | reflexivity].
Qed.

Lemma blocks_of_sizes (sizes : list Z) :
  fold_left (fun bs sz => bs ++ [NewDataBlockSize sz]) sizes []
  = NewDataBlockSize <$> sizes.
Proof. now rewrite fold_append_blocks. Qed.

(** X13.  A reader that [NewDataReader] returns belongs to the given
    [Reader], has one block per packed size, in order, each with the
    decoded on-disk size and flag, and starts at block 0 with the cursor
    at 0 and block 0 materialized at the given offset. *)
Theorem NewDataReader_decodes_sizes_in_order
    (rd : Reader) (off : Z) (sizes : list Z) (d : DataReader) :
  NewDataReader rd off sizes = Ret (inr d) ->
  r d = rd
  /\ len (blocks d) = len sizes
  /\ size <$> blocks d = (fun raw => size (NewDataBlockSize raw)) <$> sizes
  /\ compressed <$> blocks d = Z.even <$> sizes
  /\ curBlock d = 0
  /\ curReadOffset d = 0
  /\ (begOffset <$> blocks d) !! 0%nat = Some off.
Proof.
  unfold NewDataReader. rewrite blocks_of_sizes.
  destruct (readCurBlock _) as [s |] eqn:Hs; [| discriminate].
  destruct (err s) eqn:He; [discriminate |].
  intros [= <-].
  pose proof (readCurBlock_frame _ _ Hs) as (Hc & Hl & Ho & Hr).
  pose proof (readCurBlock_sizes _ _ Hs) as [Hsz Hcp].
  cbn [curBlock blocks curReadOffset r] in *.
  repeat split; try assumption.
  - rewrite Hl. unfold len. now rewrite length_fmap.
  - rewrite Hsz, <- list_fmap_compose. reflexivity.
  - rewrite Hcp, <- list_fmap_compose.
    apply list_fmap_ext. intros ? raw _. apply NewDataBlockSize_compressed.
  - destruct (readCurBlock_records_start _ _ Hs He) as (b & Hb & Hoff).
    cbn [curBlock offset] in Hb, Hoff. change (Z.to_nat 0) with 0%nat in Hb.
    now rewrite list_lookup_fmap, Hb, <- Hoff.
Qed.

Lemma NewDataReader_decodes_sizes_in_order_witness :
  exists d,
    NewDataReader (imageReader 4 image8) 0 [3; 1; 3] = Ret (inr d)
    /\ r d = imageReader 4 image8
    /\ len (blocks d) = len [3; 1; 3]
    /\ size <$> blocks d = (fun raw => size (NewDataBlockSize raw)) <$> [3; 1; 3]
    /\ compressed <$> blocks d = Z.even <$> [3; 1; 3]
    /\ curBlock d = 0
    /\ curReadOffset d = 0
    /\ (begOffset <$> blocks d) !! 0%nat = Some 0.
Proof.
  eexists. split; [vm_compute; reflexivity |].
  apply (NewDataReader_decodes_sizes_in_order (imageReader 4 image8) 0 [3; 1; 3]).
  vm_compute. reflexivity.
Defined.

End Layout.

(** ** Blocks lie end to end *)

Section Tiling.

Lemma sumSizes_app (a b : list DataBlock) :
  sumSizes (a ++ b) = sumSizes a + sumSizes b.
Proof.
  unfold sumSizes. induction a as [| x a IH]; cbn; [reflexivity |].
  cbn in IH. rewrite IH. lia.
Qed.

Lemma sumSizes_take_S (bs : list DataBlock) (j : nat) (b : DataBlock) :
  bs !! j = Some b ->
  sumSizes (take (S j) bs) = sumSizes (take j bs) + size b.
Proof.
  intros Hb. rewrite (take_S_r _ _ _ Hb), sumSizes_app.
  unfold sumSizes at 2. cbn. lia.
Qed.

Lemma sumSizes_same (bs bs' : list DataBlock) (j : nat) :
  size <$> bs' = size <$> bs ->
  sumSizes (take j bs') = sumSizes (take j bs).
Proof. intros H. unfold sumSizes. rewrite !fmap_take. now rewrite H. Qed.

Lemma sumSizes_whole_same (bs bs' : list DataBlock) :
  size <$> bs' = size <$> bs -> sumSizes bs' = sumSizes bs.
Proof. intros H. unfold sumSizes. now rewrite H. Qed.

Lemma sumSizes_take_bounds (bs : list DataBlock) :
  Forall (fun z => 0 <= z) (size <$> bs) ->
  forall j, 0 <= sumSizes (take j bs) <= sumSizes bs.
Proof.
  unfold sumSizes. induction bs as [| b bs IH]; intros Hpos j.
  - rewrite take_nil. cbn. lia.
  - cbn in Hpos. apply Forall_cons in Hpos as [Hb Hbs].
    destruct j as [| j]; cbn.
    + specialize (IH Hbs 0%nat). rewrite take_0 in IH. cbn in IH. lia.
    + specialize (IH Hbs j). lia.
Qed.

Lemma readCurBlock_moves_offset (d : DataReader) (s : step) (b : DataBlock) :
  readCurBlock d = Ret s ->
  err s = None ->
  index (blocks d) (curBlock d) = Some b ->
  - 2 ^ 63 <= offset d + size b < 2 ^ 63 ->
  offset (st s) = offset d + size b.
Proof.
  unfold readCurBlock. intros Hrun Herr Hb Hroom. revert Hrun Herr.
  destruct (_ <=? _); [intros [= <-]; discriminate |].
  rewrite Hb.
  destruct (Z.eqb_spec (size b) 0) as [H0 | _].
  - intros [= <-] _. cbn [st offset]. lia.
  - destruct (compressed b).
    + destruct (Decompress _ _ _); intros [= <-]; [discriminate |].
      intros _. cbn [st offset]. now apply int_id.
    + destruct (copySection _ _ _); intros [= <-]; [discriminate |].
      intros _. cbn [st offset]. now apply int_id.
Qed.

Lemma readCurBlock_other_blocks (d : DataReader) (s : step) (j : nat) :
  readCurBlock d = Ret s ->
  j <> Z.to_nat (curBlock d) ->
  blocks (st s) !! j = blocks d !! j.
Proof.
  unfold readCurBlock. intros Hrun Hj. revert Hrun.
  assert (Hset : forall b', setBlock d b' !! j = blocks d !! j).
  { intros b'. unfold setBlock. apply list_lookup_insert_ne. congruence. }
  destruct (_ <=? _); [now intros [= <-] |].
  destruct (index _ _) as [b |]; [| discriminate].
  destruct (size b =? 0); [intros [= <-]; apply Hset |].
  destruct (compressed b).
  - destruct (Decompress _ _ _); intros [= <-]; [reflexivity | apply Hset].
  - destruct (copySection _ _ _); intros [= <-]; [reflexivity | apply Hset].
Qed.

Lemma readCurBlock_success_in_range (d : DataReader) (s : step) :
  readCurBlock d = Ret s -> err s = None -> curBlock d < len (blocks d).
Proof.
  unfold readCurBlock.
  destruct (Z.leb_spec (len (blocks d)) (curBlock d)); [| intros _ _; lia].
  intros [= <-]. discriminate.
Qed.

(** Materializing the current block at the end of its predecessors. *)
Lemma readCurBlock_tiles (base : Z) (d : DataReader) (s : step) :
  0 <= curBlock d ->
  offset d = base + sumSizes (take (Z.to_nat (curBlock d)) (blocks d)) ->
  (forall (j : nat) (b : DataBlock),
      (j < Z.to_nat (curBlock d))%nat ->
      blocks d !! j = Some b ->
      begOffset b = base + sumSizes (take j (blocks d))) ->
  Forall (fun z => 0 <= z) (size <$> blocks d) ->
  0 <= base ->
  base + sumSizes (blocks d) < 2 ^ 63 ->
  readCurBlock d = Ret s ->
  err s = None ->
  tiled base (st s).
Proof.
  intros Hc Hoff Hprev Hpos Hbase Hroom Hrun Herr.
  pose proof (readCurBlock_frame _ _ Hrun) as (Hcb & _ & _ & _).
  pose proof (readCurBlock_sizes _ _ Hrun) as [Hsz _].
  assert (Hin : exists b, index (blocks d) (curBlock d) = Some b).
  { revert Hrun Herr. unfold readCurBlock.
    destruct (_ <=? _); [intros [= <-]; discriminate |].
    destruct (index _ _) as [b |]; [eauto | discriminate]. }
  destruct Hin as [b Hb].
  pose proof (index_lookup _ _ _ Hb) as Hlk.
  pose proof (sumSizes_take_S _ _ _ Hlk) as Hsum.
  pose proof (sumSizes_take_bounds _ Hpos (S (Z.to_nat (curBlock d)))) as Hb1.
  pose proof (sumSizes_take_bounds _ Hpos (Z.to_nat (curBlock d))) as Hb0.
  assert (Hsize : 0 <= size b).
  { rewrite Forall_forall in Hpos. apply Hpos.
    apply list_elem_of_fmap. exists b. split; [reflexivity |].
    now apply list_elem_of_lookup_2 in Hlk. }
  unfold tiled. rewrite Hcb. split.
  - rewrite (readCurBlock_moves_offset _ _ _ Hrun Herr Hb) by lia.
    rewrite (sumSizes_same _ _ _ Hsz). lia.
  - intros j bj Hj Hbj.
    rewrite (sumSizes_same _ _ _ Hsz).
    destruct (Nat.eq_dec j (Z.to_nat (curBlock d))) as [-> | Hne].
    + destruct (readCurBlock_records_start _ _ Hrun Herr) as (b' & Hb' & Hstart).
      rewrite Hbj in Hb'. injection Hb' as <-. lia.
    + rewrite (readCurBlock_other_blocks _ _ _ Hrun Hne) in Hbj.
      apply (Hprev j bj); [lia | assumption].
Qed.

Lemma advance_tiled (base : Z) (k : nat) :
  forall d d' : DataReader,
    tiled base d ->
    blockIndexOK d ->
    len (blocks d) < 2 ^ 63 ->
    Forall (fun z => 0 <= z) (size <$> blocks d) ->
    0 <= base ->
    base + sumSizes (blocks d) < 2 ^ 63 ->
    advance k d = Some d' ->
    tiled base d' /\ curBlock d' = curBlock d + Z.of_nat k.
Proof.
  induction k as [| k IH]; intros d d' Ht Hok Hlen Hpos Hbase Hroom; cbn [advance].
  - intros [= <-]. split; [assumption | lia].
  - destruct (readNextBlock d) as [s |] eqn:Hn; [| discriminate].
    destruct (err s) eqn:He; [discriminate |].
    pose proof (readNextBlock_index _ _ Hlen Hok Hn) as [Hok' Hlen'].
    pose proof (readNextBlock_sizes _ _ Hn) as [Hsz _].
    assert (Hstep : tiled base (st s) /\ curBlock (st s) = curBlock d + 1).
    { clear Hok' Hlen' Hsz IH.
      revert Hn He. unfold readNextBlock. cbn [setCurBlock curBlock blocks].
      unfold blockIndexOK in Hok.
      rewrite (int_id (curBlock d + 1)) by lia.
      destruct (_ <=? _); [intros [= <-]; discriminate |].
      destruct (readCurBlock _) as [s1 |] eqn:H1; [| discriminate].
      destruct (err s1) eqn:He1.
      - destruct (readCurBlock (setCurBlock (st s1) _)); [| discriminate].
        intros [= <-]. discriminate.
      - intros [= <-] _.
        pose proof (readCurBlock_frame _ _ H1) as (Hcb & _ & _ & _).
        cbn [setCurBlock curBlock] in Hcb. split; [| exact Hcb].
        destruct Ht as [Hoff Hprev].
        apply (readCurBlock_tiles base _ _) with (7 := H1); cbn [setCurBlock curBlock blocks offset];
          try assumption; try lia.
        + replace (Z.to_nat (curBlock d + 1)) with (S (Z.to_nat (curBlock d))) by lia.
          exact Hoff.
        + intros j b Hj. apply Hprev. lia. }
    destruct Hstep as [Ht' Hcb'].
    intros Hrun. apply IH in Hrun; try assumption.
    + destruct Hrun as [Hfin Hcur]. split; [assumption | lia].
    + lia.
    + now rewrite Hsz.
    + now rewrite (sumSizes_whole_same _ _ Hsz).
Qed.

(** X11.  Starting from a reader that [NewDataReader] returned, after
    any number of successful advances the materialized blocks lie end to
    end in the image: each block up to the current one records as its
    start the given offset plus the on-disk sizes of the blocks before
    it, the image offset is the end of the current block, and the block
    index equals the number of advances. *)
Theorem advance_tiles_image
    (rd : Reader) (off : Z) (sizes : list Z) (d d' : DataReader) (k : nat) :
  0 <= off ->
  off + sumSizes (NewDataBlockSize <$> sizes) < 2 ^ 63 ->
  len sizes < 2 ^ 63 ->
  NewDataReader rd off sizes = Ret (inr d) ->
  advance k d = Some d' ->
  tiled off d' /\ curBlock d' = Z.of_nat k.
Proof.
  intros Hoff Hroom Hlen Hnew Hadv.
  revert Hnew. unfold NewDataReader. rewrite blocks_of_sizes.
  destruct (readCurBlock _) as [s |] eqn:Hs; [| discriminate].
  destruct (err s) eqn:He; [discriminate |].
  intros [= <-].
  pose proof (readCurBlock_frame _ _ Hs) as (Hcb & Hl & _ & _).
  pose proof (readCurBlock_sizes _ _ Hs) as [Hsz _].
  pose proof (readCurBlock_success_in_range _ _ Hs He) as Hin.
  cbn [curBlock blocks] in Hcb, Hl, Hsz, Hin.
  assert (Hok : blockIndexOK (st s)).
  { unfold blockIndexOK. rewrite Hcb, Hl. lia. }
  assert (Hpos : Forall (fun z => 0 <= z) (size <$> (NewDataBlockSize <$> sizes))).
  { rewrite Forall_forall. intros z Hz.
    apply list_elem_of_fmap in Hz as (b & -> & Hb).
    apply list_elem_of_fmap in Hb as (raw & -> & _).
    unfold NewDataBlockSize, u32. cbn [size]. apply Z.mod_pos_bound. lia. }
  assert (Ht : tiled off (st s)).
  { apply (readCurBlock_tiles off _ _) with (7 := Hs); cbn [curBlock blocks offset];
      try assumption; try lia.
    change (Z.to_nat 0) with 0%nat. rewrite take_0. unfold sumSizes. cbn. lia. }
  destruct (advance_tiled off k (st s) d' Ht Hok) as [Hfin Hcur]; try assumption.
  - rewrite Hl. unfold len in *. now rewrite length_fmap.
  - now rewrite Hsz.
  - now rewrite (sumSizes_whole_same _ _ Hsz).
  - split; [assumption |]. rewrite Hcur, Hcb. lia.
Qed.

(** A raw block of 2^25 bytes, a sparse block and another raw block over
    the 8-byte image: after two advances block 2 is current, the starts
    are 0, 2^25 and 2^25, and the image offset is 2^26. *)
Lemma advance_tiles_image_witness :
  exists d d',
    NewDataReader (imageReader 0 image8) 0 [3; 1; 3] = Ret (inr d)
    /\ advance 2 d = Some d'
    /\ begOffset <$> blocks d' = [0; 2 ^ 25; 2 ^ 25]
    /\ offset d' = 2 ^ 26
    /\ tiled 0 d'
    /\ curBlock d' = 2.
Proof.
  eexists. eexists.
  split; [vm_compute; reflexivity |].
  split; [vm_compute; reflexivity |].
  split; [reflexivity |]. split; [reflexivity |].
  eapply (advance_tiles_image (imageReader 0 image8) 0 [3; 1; 3] _ _ 2).
  - lia.
  - vm_compute. reflexivity.
  - vm_compute. reflexivity.
  - vm_compute. reflexivity.
  - vm_compute. reflexivity.
Defined.

End Tiling.

(** * Further properties of the File node *)

Import ReaderFile.

(** ** Listing a directory page by page *)

Section Paging.

Context {IOReader FullReader fileInfo : Type}.

Local Abbreviation File := (@ReaderFile.File IOReader FullReader fileInfo).

Lemma slice_take_drop {A} (l : list A) (lo hi : Z) :
  0 <= lo -> lo <= hi -> hi <= len l ->
  slice l lo hi = Some (take (Z.to_nat (hi - lo)) (drop (Z.to_nat lo) l)).
Proof.
  intros H0 H1 H2. unfold slice.
  destruct (Z.leb_spec 0 lo); [| lia].
  destruct (Z.leb_spec lo hi); [| lia].
  destruct (Z.leb_spec hi (len l)); [| lia].
  reflexivity.
Qed.

(** The slice [ReadDir] walks when the reader's list is as long as the
    directory's: the [n] entries after the cursor, or those that are
    left. *)
Lemma ReadDir_bounds (f : File) (n : Z) (ents : list Entry) :
  len (e (ReaderFile.r f)) = len ents ->
  0 <= dirsRead f <= len ents ->
  0 < n ->
  len ents + n < 2 ^ 63 ->
  exists hi er,
    (if len (e (ReaderFile.r f)) <? int (dirsRead f + n)
     then (dirsRead f, len (e (ReaderFile.r f)), Some io_EOF)
     else (dirsRead f, int (dirsRead f + n), None)) = (dirsRead f, hi, er)
    /\ slice ents (dirsRead f) hi
       = Some (take (Z.to_nat n) (drop (Z.to_nat (dirsRead f)) ents))
    /\ (take (Z.to_nat n) (drop (Z.to_nat (dirsRead f)) ents) = [] -> er = Some io_EOF).
Proof.
  intros He Hd Hn Hroom.
  rewrite int_id by lia. rewrite He.
  destruct (Z.ltb_spec (len ents) (dirsRead f + n)).
  - exists (len ents), (Some io_EOF). split; [reflexivity |]. split; [| reflexivity].
    rewrite slice_take_drop by lia. f_equal.
    rewrite !take_ge; [reflexivity | |]; rewrite length_drop; unfold len in *; lia.
  - exists (dirsRead f + n), None. split; [reflexivity |]. split.
    + rewrite slice_take_drop by lia. do 2 f_equal. lia.
    + intros Hnil. apply (f_equal length) in Hnil.
      rewrite length_take, length_drop in Hnil. cbn in Hnil. unfold len in *. lia.
Qed.

Lemma ReadDir_next_entries (f : File) (n : Z) (ents : list Entry) (fis : list fileInfo) :
  IsDir f = true ->
  readDirectory (ReaderFile.r f) (i f) = inr ents ->
  Forall2 (fun en fi => newFileInfo (ReaderFile.r f) en = inr fi) ents fis ->
  len (e (ReaderFile.r f)) = len ents ->
  0 <= dirsRead f <= len ents ->
  0 < n ->
  len ents + n < 2 ^ 63 ->
  ReadDir f n
  = Ret (addDirsRead f (len (take (Z.to_nat n) (drop (Z.to_nat (dirsRead f)) fis))),
         map FileInfoToDirEntry (take (Z.to_nat n) (drop (Z.to_nat (dirsRead f)) fis)),
         match take (Z.to_nat n) (drop (Z.to_nat (dirsRead f)) fis) with
         | [] => Some io_EOF
         | _ => None
         end).
Proof.
  intros Hdir Hents Hfi He Hd Hn Hroom. unfold ReadDir.
  rewrite Hdir, Hents. cbn [negb].
  destruct (Z.ltb_spec 0 n); [| lia].
  destruct (ReadDir_bounds f n ents He Hd Hn Hroom) as (hi & er & -> & -> & Hnil).
  pose proof (Forall2_take _ _ _ (Z.to_nat n)
                (Forall2_drop _ _ _ (Z.to_nat (dirsRead f)) Hfi)) as Hpage.
  rewrite (collect_all _ _ _ [] er Hpage). cbn [app].
  assert (Hlen : len (map FileInfoToDirEntry
                        (take (Z.to_nat n) (drop (Z.to_nat (dirsRead f)) fis)))
                 = len (take (Z.to_nat n) (drop (Z.to_nat (dirsRead f)) fis))).
  { unfold len. now rewrite length_map. }
  rewrite Hlen.
  do 2 f_equal.
  pose proof (Forall2_length _ _ _ Hpage) as Hsame.
  destruct (take (Z.to_nat n) (drop (Z.to_nat (dirsRead f)) ents)) eqn:Hes;
    destruct (take (Z.to_nat n) (drop (Z.to_nat (dirsRead f)) fis)) eqn:Hfs;
    try discriminate; auto.
Qed.

(** X15.  In a directory whose entry list is as long as the one the
    reader carries (the root directory), [ReadDir(n)] with [n > 0]
    returns the [n] entries after the cursor, or the ones that are left
    if there are fewer, moves the cursor on by their number, and reports
    [io.EOF] exactly when it returns no entry. *)
Theorem ReadDir_page (f : File) (n : Z) (ents : list Entry) (fis : list fileInfo) :
  IsDir f = true ->
  readDirectory (ReaderFile.r f) (i f) = inr ents ->
  Forall2 (fun en fi => newFileInfo (ReaderFile.r f) en = inr fi) ents fis ->
  len (e (ReaderFile.r f)) = len ents ->
  0 <= dirsRead f <= len ents ->
  0 < n ->
  len ents + n < 2 ^ 63 ->
  exists page,
    page = take (Z.to_nat n) (drop (Z.to_nat (dirsRead f)) fis)
    /\ ReadDir f n
       = Ret (addDirsRead f (len page), map FileInfoToDirEntry page,
              match page with [] => Some io_EOF | _ => None end)
    /\ dirsRead (addDirsRead f (len page)) = dirsRead f + len page
    /\ dirsRead f + len page <= len ents.
Proof.
  intros Hdir Hents Hfi He Hd Hn Hroom.
  eexists. split; [reflexivity |].
  split; [now apply (ReadDir_next_entries f n ents) |].
  pose proof (Forall2_length _ _ _ Hfi) as Hsame.
  assert (Hk : len (take (Z.to_nat n) (drop (Z.to_nat (dirsRead f)) fis))
               <= len ents - dirsRead f).
  { unfold len in *. rewrite length_take, length_drop. lia. }
  pose proof (len_nonneg (take (Z.to_nat n) (drop (Z.to_nat (dirsRead f)) fis))).
  cbn [addDirsRead dirsRead]. unfold len in Hd.
  rewrite int_id by lia. lia.
Qed.

End Paging.

Section PagingThrough.

Context {IOReader FullReader fileInfo : Type}.

Local Abbreviation File := (@ReaderFile.File IOReader FullReader fileInfo).

Lemma take_then_rest {A} (l : list A) (n : nat) :
  take n l ++ drop (length (take n l)) l = l.
Proof.
  rewrite length_take.
  destruct (Nat.le_gt_cases n (length l)).
  - rewrite Nat.min_l by lia. apply take_drop.
  - rewrite Nat.min_r by lia. rewrite take_ge, drop_all by lia. apply app_nil_r.
Qed.

(** X16.  In such a directory, calling [ReadDir(n)] with one [n > 0]
    over and over until it reports [io.EOF] returns, put end to end,
    exactly the entries after the cursor, each once and in directory
    order; as many calls as there are entries left, and one more, are
    enough. *)
Theorem readDirUntilEOF_lists_the_rest
    (n : Z) (ents : list Entry) (fis : list fileInfo) (fuel : nat) :
  forall f : File,
    IsDir f = true ->
    readDirectory (ReaderFile.r f) (i f) = inr ents ->
    Forall2 (fun en fi => newFileInfo (ReaderFile.r f) en = inr fi) ents fis ->
    len (e (ReaderFile.r f)) = len ents ->
    0 <= dirsRead f <= len ents ->
    0 < n ->
    len ents + n < 2 ^ 63 ->
    (length ents - Z.to_nat (dirsRead f) < fuel)%nat ->
    readDirUntilEOF fuel f n
    = Some (map FileInfoToDirEntry (drop (Z.to_nat (dirsRead f)) fis)).
Proof.
  induction fuel as [| fuel IH]; intros f Hdir Hents Hfi He Hd Hn Hroom Hfuel; [lia |].
  cbn [readDirUntilEOF].
  rewrite (ReadDir_next_entries f n ents fis Hdir Hents Hfi He Hd Hn Hroom).
  pose proof (Forall2_length _ _ _ Hfi) as Hsame.
  pose proof (take_then_rest (drop (Z.to_nat (dirsRead f)) fis) (Z.to_nat n)) as Hsplit.
  destruct (take (Z.to_nat n) (drop (Z.to_nat (dirsRead f)) fis)) as [| x page] eqn:Hpage.
  - destruct (drop (Z.to_nat (dirsRead f)) fis) as [| y rest]; [reflexivity |].
    destruct (Z.to_nat n) eqn:Hz; [lia | discriminate].
  - assert (Hk : (length (x :: page) <= length ents - Z.to_nat (dirsRead f))%nat).
    { rewrite <- Hpage, length_take, length_drop. lia. }
    assert (Hk1 : (1 <= length (x :: page))%nat) by (cbn; lia).
    set (k := len (x :: page)) in *.
    assert (Hkz : k = Z.of_nat (length (x :: page))) by reflexivity.
    unfold len in Hd, Hroom.
    rewrite (IH (addDirsRead f k)); cbn [addDirsRead dirsRead ReaderFile.r i];
      try assumption.
    + rewrite (int_id (dirsRead f + k)) by lia.
      cbn [fmap option_fmap option_map]. f_equal.
      rewrite <- map_app. f_equal.
      rewrite <- Hsplit at 1. f_equal.
      rewrite drop_drop. f_equal. lia.
    + rewrite int_id; unfold len; lia.
    + rewrite int_id by lia. lia.
Qed.

End PagingThrough.

Section PagingExamples.

Lemma ReadDir_all_entries_witness :
  ReadDir dirD 0
  = Ret (addDirsRead dirD (len [entry x61; entry x62; entry x63]),
         map FileInfoToDirEntry [entry x61; entry x62; entry x63], None).
Proof.
  apply (ReadDir_all_entries dirD 0 [entry x61; entry x62; entry x63]
           [entry x61; entry x62; entry x63]).
  - reflexivity.
  - lia.
  - reflexivity.
  - repeat constructor.
Defined.

(** The second page of two in the root directory holds the one entry
    that is left. *)
Lemma ReadDir_page_witness :
  exists page,
    page = take (Z.to_nat 2) (drop (Z.to_nat (dirsRead (addDirsRead rootDir 2)))
                                [entry x61; entry x62; entry x63])
    /\ ReadDir (addDirsRead rootDir 2) 2
       = Ret (addDirsRead (addDirsRead rootDir 2) (len page),
              map FileInfoToDirEntry page,
              match page with [] => Some io_EOF | _ => None end)
    /\ dirsRead (addDirsRead (addDirsRead rootDir 2) (len page))
       = dirsRead (addDirsRead rootDir 2) + len page
    /\ dirsRead (addDirsRead rootDir 2) + len page
       <= len [entry x61; entry x62; entry x63].
Proof.
  apply (ReadDir_page (addDirsRead rootDir 2) 2 [entry x61; entry x62; entry x63]
           [entry x61; entry x62; entry x63]); try reflexivity.
  - repeat constructor.
  - vm_compute. intuition congruence.
Defined.

Lemma readDirUntilEOF_lists_the_rest_witness :
  readDirUntilEOF 4 rootDir 2
  = Some (map FileInfoToDirEntry [entry x61; entry x62; entry x63]).
Proof.
  apply (readDirUntilEOF_lists_the_rest 2 [entry x61; entry x62; entry x63]
           [entry x61; entry x62; entry x63] 4 rootDir); try reflexivity.
  - repeat constructor.
  - vm_compute. intuition congruence.
  - vm_compute. lia.
Defined.

End PagingExamples.

(** ** Failing lookups, construction and views *)

Section NodeFacts.

Context {IOReader FullReader fileInfo : Type}.
Variable inodeFromDir : Entry -> error + Inode.
Variable getReaders : Inode -> error + (option FullReader * option IOReader).
Variable parent_Open : list byte -> outcome (error + @ReaderFile.File IOReader FullReader fileInfo).

Local Abbreviation File := (@ReaderFile.File IOReader FullReader fileInfo).

Lemma collect_until_failure (rd : ReaderFile.Reader) (pre : list Entry)
    (fis : list fileInfo) (en : Entry) (post : list Entry) (x : error) :
  forall (out : list DirEntry) (er : option error),
    Forall2 (fun en' fi => newFileInfo rd en' = inr fi) pre fis ->
    newFileInfo rd en = inl x ->
    collect rd (pre ++ en :: post) out er
    = (out ++ map FileInfoToDirEntry fis, Some x).
Proof.
  intros out er H Hx. revert out er.
  induction H as [| en' fi pre fis Hen _ IH]; intros out er; cbn [collect map app].
  - now rewrite Hx, app_nil_r.
  - rewrite Hen, IH, <- app_assoc. reflexivity.
Qed.

(** X17.  When the info of one entry cannot be built, a whole-directory
    [ReadDir] ([n <= 0]) returns the entries before it together with
    that error, moves the cursor on by the number returned, and does not
    look at the entries after it. *)
Theorem ReadDir_stops_at_failed_info
    (f : File) (n : Z) (pre : list Entry) (fis : list fileInfo)
    (en : Entry) (post : list Entry) (x : error) :
  IsDir f = true ->
  n <= 0 ->
  readDirectory (ReaderFile.r f) (i f) = inr (pre ++ en :: post) ->
  Forall2 (fun en' fi => newFileInfo (ReaderFile.r f) en' = inr fi) pre fis ->
  newFileInfo (ReaderFile.r f) en = inl x ->
  ReadDir f n = Ret (addDirsRead f (len pre), map FileInfoToDirEntry fis, Some x).
Proof.
  intros Hdir Hn Hents Hfi Hx. unfold ReadDir.
  rewrite Hdir, Hents. cbn [negb].
  destruct (Z.ltb_spec 0 n); [lia |].
  rewrite slice_whole, (collect_until_failure _ _ _ _ _ _ [] None Hfi Hx). cbn [app].
  do 3 f_equal. unfold len. rewrite length_map.
  now rewrite (Forall2_length _ _ _ Hfi).
Qed.

(** X18.  A File that [newFile] returns carries the entry it was made
    for and the inode looked up for it, belongs to the given reader and
    starts with its directory cursor at 0; for a regular file its two
    readers are the ones [getReaders] handed out, for every other type it
    has none. *)
Theorem newFile_readers_only_for_regular
    (rd : ReaderFile.Reader) (en : Entry) (f : File) :
  newFile inodeFromDir getReaders rd en = inr f ->
  inodeFromDir en = inr (i f)
  /\ f_e f = en
  /\ ReaderFile.r f = rd
  /\ dirsRead f = 0
  /\ (IsRegular f = true -> getReaders (i f) = inr (fullRdr f, rdr f))
  /\ (IsRegular f = false -> rdr f = None /\ fullRdr f = None).
Proof.
  unfold newFile, IsRegular.
  destruct (inodeFromDir en) as [x | ino]; [discriminate |].
  destruct (bool_decide (iType ino = Fil) || bool_decide (iType ino = EFil)) eqn:Hreg.
  - destruct (getReaders ino) as [x | [full rdr0]] eqn:Hget; [discriminate |].
    intros [= <-]. cbn [i f_e ReaderFile.r dirsRead rdr fullRdr].
    rewrite Hreg. repeat split; auto; discriminate.
  - intros [= <-]. cbn [i f_e ReaderFile.r dirsRead rdr fullRdr].
    rewrite Hreg. repeat split; auto; discriminate.
Qed.


(** X20.  [GetSymlinkFile] returns no file for a node that is not a
    symbolic link and for a link whose target starts with a slash, and in
    neither case opens anything; a file it does return is what the parent
    opens for exactly the link's target, which does not start with a
    slash. *)
Theorem GetSymlinkFile_opens_relative_targets_only (f : File) :
  (IsSymlink f = false -> GetSymlinkFile parent_Open f = Ret None)
  /\ (forall rest,
        IsSymlink f = true ->
        SymlinkPath f = Ret (x2f :: rest) ->
        GetSymlinkFile parent_Open f = Ret None)
  /\ forall g,
       GetSymlinkFile parent_Open f = Ret (Some g) ->
       IsSymlink f = true
       /\ exists target,
            SymlinkPath f = Ret target
            /\ HasPrefix target [x2f] = false
            /\ parent_Open target = Ret (inr g).
Proof.
  unfold GetSymlinkFile. split; [| split].
  - intros ->. reflexivity.
  - intros rest -> ->. destruct rest; reflexivity.
  - intros g. destruct (IsSymlink f); cbn [negb]; [| discriminate].
    destruct (SymlinkPath f) as [target |]; [| discriminate].
    destruct (HasPrefix target [x2f]) eqn:Hp; [discriminate |].
    destruct (parent_Open target) as [[x | sym] |] eqn:Hopen; try discriminate.
    intros [= <-]. split; [reflexivity |]. exists target. auto.
Qed.

(** X21.  For a device node whose packed device field fits 32 bits the
    two numbers lose nothing: the minor number is below 256, the major
    number below 2^24, and 256 times the major number plus the minor
    number is the device field again. *)
Theorem deviceDevices_splits_without_loss (f : File) (dev : Z) :
  deviceField f dev ->
  0 <= dev < 2 ^ 32 ->
  exists maj min,
    deviceDevices f = Ret (maj, min)
    /\ 0 <= maj < 2 ^ 24
    /\ 0 <= min < 256
    /\ 256 * maj + min = dev.
Proof.
  intros Hf Hdev.
  exists (Z.shiftr dev 8), (Z.land dev 255).
  destruct (major_minor_divmod dev Hdev) as (Hmaj & Hmin & Hsum & Hrange).
  split.
  - unfold deviceField in Hf. unfold deviceDevices.
    destruct Hf as [[[Ht | Ht] Hd] | [[Ht | Ht] Hd]]; rewrite Ht, Hd; reflexivity.
  - split; [exact Hrange |]. split; [| lia].
    rewrite Hmin. apply Z.mod_pos_bound. lia.
Qed.

End NodeFacts.

Section NodeExamples.

Lemma ReadDir_stops_at_failed_info_witness :
  ReadDir gapDir 0
  = Ret (addDirsRead gapDir (len [entry x61]), map FileInfoToDirEntry [entry x61],
         Some (ErrExternal 9)).
Proof.
  apply (ReadDir_stops_at_failed_info gapDir 0 [entry x61] [entry x61]
           (entry x62) [entry x63] (ErrExternal 9)); try reflexivity.
  repeat constructor.
Defined.

Lemma newFile_readers_only_for_regular_witness :
  exists f,
    newFile inodeOf readersOf archive (entry x70) = inr f
    /\ inodeOf (entry x70) = inr (i f)
    /\ f_e f = entry x70
    /\ ReaderFile.r f = archive
    /\ dirsRead f = 0
    /\ (IsRegular f = true -> readersOf (i f) = inr (fullRdr f, rdr f))
    /\ (IsRegular f = false -> rdr f = None /\ fullRdr f = None).
Proof.
  eexists. split; [reflexivity |].
  apply (newFile_readers_only_for_regular inodeOf readersOf archive (entry x70)).
  reflexivity.
Defined.


Lemma GetSymlinkFile_opens_relative_targets_only_witness :
  GetSymlinkFile openInD linkToA = Ret (Some fileA)
  /\ IsSymlink linkToA = true
  /\ exists target,
       SymlinkPath linkToA = Ret target
       /\ HasPrefix target [x2f] = false
       /\ openInD target = Ret (inr fileA).
Proof.
  split; [reflexivity |].
  destruct (GetSymlinkFile_opens_relative_targets_only openInD linkToA) as (_ & _ & Hsome).
  apply Hsome. reflexivity.
Defined.

Lemma deviceDevices_splits_without_loss_witness :
  exists maj min,
    deviceDevices devSda1 = Ret (maj, min)
    /\ 0 <= maj < 2 ^ 24
    /\ 0 <= min < 256
    /\ 256 * maj + min = 2049.
Proof.
  apply (deviceDevices_splits_without_loss devSda1 2049).
  - left. split; [right; reflexivity | reflexivity].
  - lia.
Defined.

End NodeExamples.

(** ** The directory cursor *)

Section Cursor.

Context {IOReader FullReader fileInfo : Type}.

Local Abbreviation File := (@ReaderFile.File IOReader FullReader fileInfo).

(** X23.  Whatever [ReadDir] returns, entries or an error or both, it
    has moved the cursor on by exactly the number of entries it returned
    and changed nothing else of the node. *)
Theorem ReadDir_moves_cursor_by_entries_returned
    (f f' : File) (n : Z) (out : list DirEntry) (er : option error) :
  ReadDir f n = Ret (f', out, er) ->
  - 2 ^ 63 <= dirsRead f ->
  dirsRead f + len out < 2 ^ 63 ->
  dirsRead f' = dirsRead f + len out
  /\ i f' = i f
  /\ ReaderFile.r f' = ReaderFile.r f
  /\ f_e f' = f_e f
  /\ rdr f' = rdr f
  /\ fullRdr f' = fullRdr f.
Proof.
  unfold ReadDir. intros Hrun Hlo Hhi. revert Hrun.
  assert (Hsame : dirsRead f = dirsRead f + len (@nil (@DirEntry fileInfo)))
    by (unfold len; cbn [length]; lia).
  destruct (IsDir f); cbn [negb]; [| intros [= <- <- _]; repeat split; exact Hsame].
  destruct (readDirectory _ _) as [x | ents];
    [intros [= <- <- _]; repeat split; exact Hsame |].
  destruct (if 0 <? n then _ else _) as [[lo hi] er0].
  destruct (slice ents lo hi) as [es |]; [| discriminate].
  destruct (collect _ es [] er0) as [out1 er1] eqn:Hc.
  intros [= <- <- _]. cbn [addDirsRead dirsRead i ReaderFile.r f_e rdr fullRdr].
  pose proof (len_nonneg out1).
  rewrite int_id by lia. repeat split.
Qed.

End Cursor.

Section CursorExamples.

Lemma ReadDir_moves_cursor_by_entries_returned_witness :
  exists f',
    ReadDir gapDir 0 = Ret (f', map FileInfoToDirEntry [entry x61], Some (ErrExternal 9))
    /\ dirsRead f' = dirsRead gapDir + len (map FileInfoToDirEntry [entry x61])
    /\ i f' = i gapDir
    /\ ReaderFile.r f' = ReaderFile.r gapDir
    /\ f_e f' = f_e gapDir
    /\ rdr f' = rdr gapDir
    /\ fullRdr f' = fullRdr gapDir.
Proof.
  eexists. split; [reflexivity |].
  apply (ReadDir_moves_cursor_by_entries_returned gapDir _ 0
           (map FileInfoToDirEntry [entry x61]) (Some (ErrExternal 9)));
    [reflexivity | vm_compute; discriminate | vm_compute; reflexivity].
Defined.


End CursorExamples.
